(** * TicketEngine: a shallow embedding of the allocation contract

    The development follows [packages/hardhat/contracts/TicketEngine.sol].
    Solidity storage is a record of finite maps read with the EVM's zero
    default, [uint256] values are integers whose checked arithmetic aborts
    the call, and every external function is a computation in a small
    state-and-revert monad.  A transaction wraps such a computation and
    restores the storage when it reverts.

    What is left out, and why it does not matter here:
    - [emit] statements: logs are not storage and nothing reads them;
    - the [nonReentrant] modifier: [grabTicket] makes no external call
      ([_mint], unlike [_safeMint], never calls the receiver), so the guard
      is never found entered and is back at rest when the call ends;
    - the entry points inherited from ERC721 (transfers and approvals):
      they write ERC721's own storage only, which the contract reads
      nowhere but inside [_mint]. *)

From Stdlib Require Import ZArith Lia.
From stdpp Require Import gmap strings list fin_maps sorting.

Local Open Scope Z_scope.

(** ** Machine integers and addresses *)

Abbreviation address := Z.

Definition MAX_UINT256 : Z := 2 ^ 256 - 1.

(** [address(0)] *)
Definition address0 : Z := 0.

(** ** Enums and structs *)

Inductive EventStatus := StatusNotStarted | StatusInProgress | StatusSoldOut.

Inductive AttemptResult := Success | AlreadyOwnsTicket | SoldOut | NotStarted.

#[global] Instance AttemptResult_eq_dec : EqDecision AttemptResult.
Proof. solve_decision. Defined.

Module Event.
Record t := mk {
  id : Z;
  title : string;
  startTime : Z;
  totalTickets : Z;
  remainingTickets : Z;
  organizer : address;
  exists_ : bool
}.
(** The value read from a mapping slot that was never written. *)
Definition zero : t := mk 0 "" 0 0 0 address0 false.
Definition set_remainingTickets (v : Z) (e : t) : t :=
  mk (id e) (title e) (startTime e) (totalTickets e) v (organizer e) (exists_ e).
End Event.

Module Ticket.
Record t := mk {
  id : Z;
  eventId : Z;
  owner : address;
  acquiredAt : Z
}.
Definition zero : t := mk 0 0 address0 0.
End Ticket.

Module Attempt.
Record t := mk {
  eventId : Z;
  participant : address;
  timestamp : Z;
  result : AttemptResult
}.
End Attempt.

(** ** Contract storage *)

Record State := mkState {
  nextEventId : Z;
  nextTicketId : Z;
  events : gmap Z Event.t;
  tickets : gmap Z Ticket.t;
  hasTicketForEvent : gmap (Z * Z) bool;
  userTicketForEvent : gmap (Z * Z) Z;
  eventTickets : gmap Z (list Z);
  userEvents : gmap Z (list Z);
  userAttempts : gmap Z (list Attempt.t);
  allEventIds : list Z;
  (* storage inherited from ERC721 *)
  _owners : gmap Z Z;
  _balances : gmap Z Z
}.

(** Storage right after the constructor: both counters start at 1. *)
Definition initial : State :=
  mkState 1 1 ∅ ∅ ∅ ∅ ∅ ∅ ∅ [] ∅ ∅.

(** Reading a mapping: an absent key reads as the zero value. *)
Definition rd {K V} `{Countable K} (zero : V) (m : gmap K V) (k : K) : V :=
  default zero (m !! k).

Definition event_at (s : State) (k : Z) : Event.t := rd Event.zero (events s) k.
Definition ticket_at (s : State) (k : Z) : Ticket.t := rd Ticket.zero (tickets s) k.
Definition hasTicket_at (s : State) (e : Z) (a : address) : bool :=
  rd false (hasTicketForEvent s) (e, a).
Definition userTicket_at (s : State) (e : Z) (a : address) : Z :=
  rd 0 (userTicketForEvent s) (e, a).
Definition eventTickets_at (s : State) (e : Z) : list Z := rd [] (eventTickets s) e.
Definition userEvents_at (s : State) (a : address) : list Z := rd [] (userEvents s) a.
Definition userAttempts_at (s : State) (a : address) : list Attempt.t :=
  rd [] (userAttempts s) a.
Definition ownerOf_at (s : State) (t : Z) : address := rd address0 (_owners s) t.
Definition balance_at (s : State) (a : address) : Z := rd 0 (_balances s) a.

(** Field updates. *)
Definition set_nextEventId (v : Z) (s : State) : State :=
  mkState v (nextTicketId s) (events s) (tickets s) (hasTicketForEvent s)
    (userTicketForEvent s) (eventTickets s) (userEvents s) (userAttempts s)
    (allEventIds s) (_owners s) (_balances s).
Definition set_nextTicketId (v : Z) (s : State) : State :=
  mkState (nextEventId s) v (events s) (tickets s) (hasTicketForEvent s)
    (userTicketForEvent s) (eventTickets s) (userEvents s) (userAttempts s)
    (allEventIds s) (_owners s) (_balances s).
Definition set_events (v : gmap Z Event.t) (s : State) : State :=
  mkState (nextEventId s) (nextTicketId s) v (tickets s) (hasTicketForEvent s)
    (userTicketForEvent s) (eventTickets s) (userEvents s) (userAttempts s)
    (allEventIds s) (_owners s) (_balances s).
Definition set_tickets (v : gmap Z Ticket.t) (s : State) : State :=
  mkState (nextEventId s) (nextTicketId s) (events s) v (hasTicketForEvent s)
    (userTicketForEvent s) (eventTickets s) (userEvents s) (userAttempts s)
    (allEventIds s) (_owners s) (_balances s).
Definition set_hasTicketForEvent (v : gmap (Z * Z) bool) (s : State) : State :=
  mkState (nextEventId s) (nextTicketId s) (events s) (tickets s) v
    (userTicketForEvent s) (eventTickets s) (userEvents s) (userAttempts s)
    (allEventIds s) (_owners s) (_balances s).
Definition set_userTicketForEvent (v : gmap (Z * Z) Z) (s : State) : State :=
  mkState (nextEventId s) (nextTicketId s) (events s) (tickets s)
    (hasTicketForEvent s) v (eventTickets s) (userEvents s) (userAttempts s)
    (allEventIds s) (_owners s) (_balances s).
Definition set_eventTickets (v : gmap Z (list Z)) (s : State) : State :=
  mkState (nextEventId s) (nextTicketId s) (events s) (tickets s)
    (hasTicketForEvent s) (userTicketForEvent s) v (userEvents s)
    (userAttempts s) (allEventIds s) (_owners s) (_balances s).
Definition set_userEvents (v : gmap Z (list Z)) (s : State) : State :=
  mkState (nextEventId s) (nextTicketId s) (events s) (tickets s)
    (hasTicketForEvent s) (userTicketForEvent s) (eventTickets s) v
    (userAttempts s) (allEventIds s) (_owners s) (_balances s).
Definition set_userAttempts (v : gmap Z (list Attempt.t)) (s : State) : State :=
  mkState (nextEventId s) (nextTicketId s) (events s) (tickets s)
    (hasTicketForEvent s) (userTicketForEvent s) (eventTickets s)
    (userEvents s) v (allEventIds s) (_owners s) (_balances s).
Definition set_allEventIds (v : list Z) (s : State) : State :=
  mkState (nextEventId s) (nextTicketId s) (events s) (tickets s)
    (hasTicketForEvent s) (userTicketForEvent s) (eventTickets s)
    (userEvents s) (userAttempts s) v (_owners s) (_balances s).
Definition set_owners (v : gmap Z Z) (s : State) : State :=
  mkState (nextEventId s) (nextTicketId s) (events s) (tickets s)
    (hasTicketForEvent s) (userTicketForEvent s) (eventTickets s)
    (userEvents s) (userAttempts s) (allEventIds s) v (_balances s).
Definition set_balances (v : gmap Z Z) (s : State) : State :=
  mkState (nextEventId s) (nextTicketId s) (events s) (tickets s)
    (hasTicketForEvent s) (userTicketForEvent s) (eventTickets s)
    (userEvents s) (userAttempts s) (allEventIds s) (_owners s) v.

(** ** Calls: environment, reverts, and the call monad *)

Record Env := mkEnv {
  msg_sender : address;
  block_timestamp : Z
}.

(** Ways a call can abort. [Error] is a failed [require] with its message,
    [Panic] a failed checked operation (0x11: arithmetic overflow or
    underflow, 0x32: array index out of bounds); the last two are the
    custom errors of ERC721's [_mint]. *)
Inductive Revert :=
| Error (reason : string)
| Panic (code : Z)
| ERC721InvalidReceiver (receiver : address)
| ERC721InvalidSender (sender : address).

(** A call maps storage to a value or a revert, together with the storage
    as it stands where the call stopped.  Keeping the storage of an
    aborted call makes it possible to say that an abort happened before
    any write; [transact] below is what discards it. *)
Definition M (A : Type) : Type := State → (Revert + A) * State.

Definition ret {A} (a : A) : M A := λ s, (inr a, s).
Definition revert {A} (e : Revert) : M A := λ s, (inl e, s).
Definition bind {A B} (m : M A) (k : A → M B) : M B :=
  λ s, match m s with
       | (inl e, s') => (inl e, s')
       | (inr a, s') => k a s'
       end.
Definition gets {A} (f : State → A) : M A := λ s, (inr (f s), s).
Definition modify (f : State → State) : M unit := λ s, (inr tt, f s).
Definition require (c : bool) (reason : string) : M unit :=
  if c then ret tt else revert (Error reason).

Notation "'let!' x ':=' m 'in' k" := (bind m (λ x, k))
  (at level 10, x name, m at level 100, k at level 200, only parsing).
Notation "m ;; k" := (bind m (λ _, k))
  (at level 100, k at level 200, right associativity, only parsing).

(** Checked [x + 1] and [x - 1] on [uint256]. *)
Definition checked_succ (x : Z) : M Z :=
  if x <? MAX_UINT256 then ret (x + 1) else revert (Panic 17).
Definition checked_pred (x : Z) : M Z :=
  if 0 <? x then ret (x - 1) else revert (Panic 17).

(** A transaction: on revert every write of the call is rolled back. *)
Definition transact {A} (m : M A) (s : State) : (Revert + A) * State :=
  match m s with
  | (inl e, _) => (inl e, s)
  | (inr a, s') => (inr a, s')
  end.

(** ** Inherited ERC721 minting

    [_mint] of OpenZeppelin Contracts 5.x, the library the contract
    imports ([ERC721._mint] through [ERC721._update] with no authorised
    caller).  It rejects the zero address, bumps the receiver's balance in
    an unchecked block, records the owner, and rejects a token that was
    already owned.  Its [Transfer] log is not storage and is left out. *)
Definition _mint (to tokenId : Z) : M unit :=
  if to =? address0 then revert (ERC721InvalidReceiver address0) else
  let! from := gets (λ s, ownerOf_at s tokenId) in
  (if from =? address0 then ret tt else
     modify (λ s, set_balances
       (<[from := (balance_at s from - 1) mod 2 ^ 256]> (_balances s)) s)) ;;
  modify (λ s, set_balances
    (<[to := (balance_at s to + 1) mod 2 ^ 256]> (_balances s)) s) ;;
  modify (λ s, set_owners (<[tokenId := to]> (_owners s)) s) ;;
  if from =? address0 then ret tt else revert (ERC721InvalidSender address0).

(** ** The contract's functions *)

Section Calls.
Variable env : Env.

(** [_recordAttempt]: push one entry on the caller's attempt log. *)
Definition _recordAttempt (_eventId : Z) (_result : AttemptResult) : M unit :=
  let attempt :=
    Attempt.mk _eventId (msg_sender env) (block_timestamp env) _result in
  modify (λ s, set_userAttempts
    (<[msg_sender env := userAttempts_at s (msg_sender env) ++ [attempt]]>
       (userAttempts s)) s).

(** [createEvent]: three [require]s, then the id is taken from the
    post-incremented counter, the event is stored and its id listed. *)
Definition createEvent (_title : string) (_startTime _totalTickets : Z) : M Z :=
  require (0 <? Z.of_nat (String.length _title)) "Title cannot be empty" ;;
  require (0 <? _totalTickets) "Must have at least 1 ticket" ;;
  require (block_timestamp env <? _startTime) "Start time must be in future" ;;
  let! eventId := gets nextEventId in
  let! next := checked_succ eventId in
  modify (set_nextEventId next) ;;
  modify (λ s, set_events
    (<[eventId := Event.mk eventId _title _startTime _totalTickets
                    _totalTickets (msg_sender env) true]> (events s)) s) ;;
  modify (λ s, set_allEventIds (allEventIds s ++ [eventId]) s) ;;
  ret eventId.

(** [grabTicket].  [evt] is a storage pointer, so each use of one of its
    fields reads the slot [events[_eventId]] at that moment. *)
Definition grabTicket (_eventId : Z) : M (bool * AttemptResult * Z) :=
  let! evt_exists := gets (λ s, Event.exists_ (event_at s _eventId)) in
  require evt_exists "Event does not exist" ;;
  let! startTime := gets (λ s, Event.startTime (event_at s _eventId)) in
  if block_timestamp env <? startTime then
    _recordAttempt _eventId NotStarted ;;
    ret (false, NotStarted, 0)
  else
  let! has := gets (λ s, hasTicket_at s _eventId (msg_sender env)) in
  if has then
    _recordAttempt _eventId AlreadyOwnsTicket ;;
    ret (false, AlreadyOwnsTicket, 0)
  else
  let! remaining := gets (λ s, Event.remainingTickets (event_at s _eventId)) in
  if remaining =? 0 then
    _recordAttempt _eventId SoldOut ;;
    ret (false, SoldOut, 0)
  else
  let! ticketId := gets nextTicketId in
  let! next := checked_succ ticketId in
  modify (set_nextTicketId next) ;;
  let! remaining := gets (λ s, Event.remainingTickets (event_at s _eventId)) in
  let! remaining' := checked_pred remaining in
  modify (λ s, set_events
    (<[_eventId := Event.set_remainingTickets remaining' (event_at s _eventId)]>
       (events s)) s) ;;
  modify (λ s, set_tickets
    (<[ticketId := Ticket.mk ticketId _eventId (msg_sender env)
                     (block_timestamp env)]> (tickets s)) s) ;;
  modify (λ s, set_hasTicketForEvent
    (<[(_eventId, msg_sender env) := true]> (hasTicketForEvent s)) s) ;;
  modify (λ s, set_userTicketForEvent
    (<[(_eventId, msg_sender env) := ticketId]> (userTicketForEvent s)) s) ;;
  modify (λ s, set_eventTickets
    (<[_eventId := eventTickets_at s _eventId ++ [ticketId]]>
       (eventTickets s)) s) ;;
  modify (λ s, set_userEvents
    (<[msg_sender env := userEvents_at s (msg_sender env) ++ [_eventId]]>
       (userEvents s)) s) ;;
  _mint (msg_sender env) ticketId ;;
  _recordAttempt _eventId Success ;;
  ret (true, Success, ticketId).
End Calls.

(** ** View functions *)

(** [getEventStatus] *)
Definition getEventStatus (now : Z) (_eventId : Z) : M EventStatus :=
  let! evt_exists := gets (λ s, Event.exists_ (event_at s _eventId)) in
  require evt_exists "Event does not exist" ;;
  let! startTime := gets (λ s, Event.startTime (event_at s _eventId)) in
  if now <? startTime then ret StatusNotStarted else
  let! remaining := gets (λ s, Event.remainingTickets (event_at s _eventId)) in
  if remaining =? 0 then ret StatusSoldOut else ret StatusInProgress.

(** The three parallel memory arrays filled by [getRecentTickets]. *)
Record RecentTickets := mkRecent {
  ticketIds : list Z;
  owners : list Z;
  acquiredTimes : list Z
}.

(** Checked read [a[i]] of a storage array. *)
Definition index (a : list Z) (i : Z) : Revert + Z :=
  if (0 <=? i) && (i <? Z.of_nat (length a)) then
    match a !! Z.to_nat i with
    | Some v => inr v
    | None => inl (Panic 50)
    end
  else inl (Panic 50).

(** Checked write [a[i] = v] into a memory array. *)
Definition store (a : list Z) (i : Z) (v : Z) : Revert + list Z :=
  if (0 <=? i) && (i <? Z.of_nat (length a)) then inr (<[Z.to_nat i := v]> a)
  else inl (Panic 50).

(** Checked subtraction on [uint256]. *)
Definition checked_sub (x y : Z) : Revert + Z :=
  if y <=? x then inr (x - y) else inl (Panic 17).

(** The [for] loop of [getRecentTickets]: [todo] counts the iterations left
    to run from index [i] (the loop runs while [i < returnLen]). *)
Fixpoint recent_loop (s : State) (evtTickets : list Z) (len : Z)
    (todo : nat) (i : Z) (acc : RecentTickets) : Revert + RecentTickets :=
  match todo with
  | O => inr acc
  | S todo' =>
    match checked_sub len 1 with
    | inl e => inl e
    | inr d =>
      match checked_sub d i with
      | inl e => inl e
      | inr j =>
        match index evtTickets j with
        | inl e => inl e
        | inr tId =>
          match store (ticketIds acc) i tId with
          | inl e => inl e
          | inr ids =>
            match store (owners acc) i (Ticket.owner (ticket_at s tId)) with
            | inl e => inl e
            | inr os =>
              match store (acquiredTimes acc) i
                      (Ticket.acquiredAt (ticket_at s tId)) with
              | inl e => inl e
              | inr ts =>
                recent_loop s evtTickets len todo' (i + 1) (mkRecent ids os ts)
              end
            end
          end
        end
      end
    end
  end.

(** [getRecentTickets] *)
Definition getRecentTickets (s : State) (_eventId _limit : Z)
    : Revert + RecentTickets :=
  let evtTickets := eventTickets_at s _eventId in
  let len := Z.of_nat (length evtTickets) in
  let returnLen := if len <? _limit then len else _limit in
  let zeros := replicate (Z.to_nat returnLen) 0 in
  recent_loop s evtTickets len (Z.to_nat returnLen) 0 (mkRecent zeros zeros zeros).

(** ** Transactions and runs *)

Inductive Call :=
| CreateEvent (env : Env) (_title : string) (_startTime _totalTickets : Z)
| GrabTicket (env : Env) (_eventId : Z).

Inductive Return :=
| Created (eventId : Z)
| Grabbed (success : bool) (result : AttemptResult) (ticketId : Z)
| Reverted (e : Revert).

(** One transaction against the contract. *)
Definition exec (c : Call) (s : State) : Return * State :=
  match c with
  | CreateEvent env t st n =>
    match transact (createEvent env t st n) s with
    | (inr id, s') => (Created id, s')
    | (inl e, s') => (Reverted e, s')
    end
  | GrabTicket env e =>
    match transact (grabTicket env e) s with
    | (inr (ok, r, tid), s') => (Grabbed ok r tid, s')
    | (inl e, s') => (Reverted e, s')
    end
  end.

(** A sequence of transactions; the history pairs each call with what it
    returned. *)
Fixpoint run (cs : list Call) (s : State) : list (Call * Return) * State :=
  match cs with
  | [] => ([], s)
  | c :: cs' =>
    let (r, s') := exec c s in
    let (h, s'') := run cs' s' in
    ((c, r) :: h, s'')
  end.

(** The states reached from the constructor's storage by [createEvent] and
    [grabTicket] transactions.  The entry points inherited from ERC721
    (transfers and approvals) are not among the calls: they write
    [_owners], [_balances] and the approvals only, so what is proved of the
    contract's own storage holds of the deployed contract, while what is
    proved of [_owners] and [_balances] holds of these runs. *)
Definition reachable (s : State) : Prop := ∃ cs, (run cs initial).2 = s.

(** Ticket ids handed out along a history, oldest first. *)
Fixpoint issued (h : list (Call * Return)) : list Z :=
  match h with
  | [] => []
  | (_, Grabbed true _ t) :: h' => t :: issued h'
  | _ :: h' => issued h'
  end.

(** Ticket ids handed out for event [e] along a history, oldest first. *)
Fixpoint issued_for (e : Z) (h : list (Call * Return)) : list Z :=
  match h with
  | [] => []
  | (GrabTicket _ e', Grabbed true _ t) :: h' =>
    if decide (e' = e) then t :: issued_for e h' else issued_for e h'
  | _ :: h' => issued_for e h'
  end.

(** Event ids handed out along a history, oldest first. *)
Fixpoint created_ids (h : list (Call * Return)) : list Z :=
  match h with
  | [] => []
  | (_, Created e) :: h' => e :: created_ids h'
  | _ :: h' => created_ids h'
  end.

(** [Success] entries for event [e] in one attempt log, and in all of them. *)
Definition log_successes (e : Z) (log : list Attempt.t) : nat :=
  length (filter (λ a, Attempt.eventId a = e ∧ Attempt.result a = Success) log).

Definition ledger_successes (e : Z) (s : State) : nat :=
  map_fold (λ _ log n, (log_successes e log + n)%nat) 0%nat (userAttempts s).

(** ** What each call computes, in closed form *)

(** Storage after [_recordAttempt]. *)
Definition recorded (env : Env) (e : Z) (r : AttemptResult) (s : State) : State :=
  set_userAttempts
    (<[msg_sender env :=
         userAttempts_at s (msg_sender env)
           ++ [Attempt.mk e (msg_sender env) (block_timestamp env) r]]>
       (userAttempts s)) s.

(** Storage after a successful [createEvent]. *)
Definition created (env : Env) (t : string) (st n : Z) (s : State) : State :=
  mkState (nextEventId s + 1) (nextTicketId s)
    (<[nextEventId s := Event.mk (nextEventId s) t st n n (msg_sender env) true]>
       (events s))
    (tickets s) (hasTicketForEvent s) (userTicketForEvent s) (eventTickets s)
    (userEvents s) (userAttempts s) (allEventIds s ++ [nextEventId s])
    (_owners s) (_balances s).

(** Storage of [grabTicket] on its success path just before [_mint]. *)
Definition allotted (env : Env) (e : Z) (s : State) : State :=
  mkState (nextEventId s) (nextTicketId s + 1)
    (<[e := Event.set_remainingTickets
              (Event.remainingTickets (event_at s e) - 1) (event_at s e)]>
       (events s))
    (<[nextTicketId s :=
         Ticket.mk (nextTicketId s) e (msg_sender env) (block_timestamp env)]>
       (tickets s))
    (<[(e, msg_sender env) := true]> (hasTicketForEvent s))
    (<[(e, msg_sender env) := nextTicketId s]> (userTicketForEvent s))
    (<[e := eventTickets_at s e ++ [nextTicketId s]]> (eventTickets s))
    (<[msg_sender env := userEvents_at s (msg_sender env) ++ [e]]> (userEvents s))
    (userAttempts s) (allEventIds s) (_owners s) (_balances s).

(** Storage after [_mint] of a fresh token. *)
Definition minted (to tokenId : Z) (s : State) : State :=
  set_owners (<[tokenId := to]> (_owners s))
    (set_balances (<[to := (balance_at s to + 1) mod 2 ^ 256]> (_balances s)) s).

(** Storage after a successful [grabTicket]. *)
Definition granted (env : Env) (e : Z) (s : State) : State :=
  recorded env e Success (minted (msg_sender env) (nextTicketId s) (allotted env e s)).

(** The reverts [createEvent] raises for a bad argument. *)
Definition InvalidArgument (e : Revert) : Prop :=
  e = Error "Title cannot be empty"
  ∨ e = Error "Must have at least 1 ticket"
  ∨ e = Error "Start time must be in future".

(** The revert [grabTicket] raises for an unknown event. *)
Definition NotFound : Revert := Error "Event does not exist".

(** ** Case analysis of one transaction

    The possible results of a [grabTicket] transaction, and of a
    [createEvent] transaction, each with the condition it arises under. *)

Inductive grab_spec (env : Env) (e : Z) (s : State) : Return * State → Prop :=
| grab_not_found :
    Event.exists_ (event_at s e) = false →
    grab_spec env e s (Reverted NotFound, s)
| grab_not_started :
    Event.exists_ (event_at s e) = true →
    block_timestamp env < Event.startTime (event_at s e) →
    grab_spec env e s (Grabbed false NotStarted 0, recorded env e NotStarted s)
| grab_already :
    Event.exists_ (event_at s e) = true →
    Event.startTime (event_at s e) ≤ block_timestamp env →
    hasTicket_at s e (msg_sender env) = true →
    grab_spec env e s
      (Grabbed false AlreadyOwnsTicket 0, recorded env e AlreadyOwnsTicket s)
| grab_sold_out :
    Event.exists_ (event_at s e) = true →
    Event.startTime (event_at s e) ≤ block_timestamp env →
    hasTicket_at s e (msg_sender env) = false →
    Event.remainingTickets (event_at s e) = 0 →
    grab_spec env e s (Grabbed false SoldOut 0, recorded env e SoldOut s)
| grab_fault err :
    Event.exists_ (event_at s e) = true →
    Event.startTime (event_at s e) ≤ block_timestamp env →
    hasTicket_at s e (msg_sender env) = false →
    Event.remainingTickets (event_at s e) ≠ 0 →
    MAX_UINT256 ≤ nextTicketId s
    ∨ Event.remainingTickets (event_at s e) < 0
    ∨ msg_sender env = address0
    ∨ ownerOf_at s (nextTicketId s) ≠ address0 →
    grab_spec env e s (Reverted err, s)
| grab_success :
    Event.exists_ (event_at s e) = true →
    Event.startTime (event_at s e) ≤ block_timestamp env →
    hasTicket_at s e (msg_sender env) = false →
    0 < Event.remainingTickets (event_at s e) →
    nextTicketId s < MAX_UINT256 →
    msg_sender env ≠ address0 →
    ownerOf_at s (nextTicketId s) = address0 →
    grab_spec env e s (Grabbed true Success (nextTicketId s), granted env e s).

Inductive create_spec (env : Env) (t : string) (st n : Z) (s : State)
  : Return * State → Prop :=
| create_invalid err :
    InvalidArgument err →
    t = "" ∨ n < 1 ∨ st ≤ block_timestamp env →
    create_spec env t st n s (Reverted err, s)
| create_overflow :
    t ≠ "" → 1 ≤ n → block_timestamp env < st →
    MAX_UINT256 ≤ nextEventId s →
    create_spec env t st n s (Reverted (Panic 17), s)
| create_ok :
    t ≠ "" → 1 ≤ n → block_timestamp env < st →
    nextEventId s < MAX_UINT256 →
    create_spec env t st n s (Created (nextEventId s), created env t st n s).

(** ** Invariants

    [Inv] holds of the storage alone. *)

Record Inv (s : State) : Prop := mkInv {
  inv_next_event : 1 ≤ nextEventId s;
  inv_next_ticket : 1 ≤ nextTicketId s;
  inv_event : ∀ e, Event.exists_ (event_at s e) = true →
    Event.id (event_at s e) = e ∧ 1 ≤ e < nextEventId s
    ∧ 1 ≤ Event.totalTickets (event_at s e)
    ∧ 0 ≤ Event.remainingTickets (event_at s e) ≤ Event.totalTickets (event_at s e);
  inv_event_range : ∀ e, 1 ≤ e < nextEventId s → Event.exists_ (event_at s e) = true;
  inv_no_event : ∀ e, Event.exists_ (event_at s e) = false → eventTickets_at s e = [];
  inv_sold : ∀ e, Event.exists_ (event_at s e) = true →
    Z.of_nat (length (eventTickets_at s e)) =
      Event.totalTickets (event_at s e) - Event.remainingTickets (event_at s e);
  inv_ticket : ∀ t k, tickets s !! t = Some k →
    Ticket.id k = t ∧ 1 ≤ t < nextTicketId s
    ∧ hasTicket_at s (Ticket.eventId k) (Ticket.owner k) = true
    ∧ userTicket_at s (Ticket.eventId k) (Ticket.owner k) = t
    ∧ ownerOf_at s t = Ticket.owner k;
  inv_owner : ∀ t, nextTicketId s ≤ t → ownerOf_at s t = address0;
  inv_listed : ∀ e, e ∈ allEventIds s ↔ 1 ≤ e < nextEventId s
}.

(** [HInv] ties the storage to the history of calls that produced it. *)

Record HInv (h : list (Call * Return)) (s : State) : Prop := mkHInv {
  hinv_issued_range : Forall (λ t, 1 ≤ t < nextTicketId s) (issued h);
  hinv_issued_sorted : StronglySorted Z.lt (issued h);
  hinv_created_range : Forall (λ e, 1 ≤ e < nextEventId s) (created_ids h);
  hinv_created_sorted : StronglySorted Z.lt (created_ids h);
  hinv_created : ∀ e, Event.exists_ (event_at s e) = true ↔ e ∈ created_ids h;
  hinv_event_tickets : ∀ e, eventTickets_at s e = issued_for e h;
  hinv_store : ∀ e t,
    (∃ k, tickets s !! t = Some k ∧ Ticket.eventId k = e) ↔ t ∈ issued_for e h;
  hinv_ledger : ∀ e, ledger_successes e s = length (issued_for e h);
  hinv_ticket_counter : nextTicketId s = 1 + Z.of_nat (length (issued h));
  hinv_event_counter : nextEventId s = 1 + Z.of_nat (length (created_ids h))
}.

(** ** A sample run

    One event with two tickets; a claim before the start, then claims from
    three callers once it is active, the first of them claiming twice. *)

Definition organizer : address := 99.
Definition alice : address := 10.
Definition bob : address := 11.
Definition carol : address := 12.

Definition scenario : list Call :=
  [ CreateEvent (mkEnv organizer 0) "X" 100 2;
    GrabTicket (mkEnv alice 50) 1;
    GrabTicket (mkEnv alice 150) 1;
    GrabTicket (mkEnv alice 150) 1;
    GrabTicket (mkEnv bob 150) 1;
    GrabTicket (mkEnv carol 150) 1 ].

(** ** The remaining view functions

    A view function reads storage and either returns or reverts; it is a
    function of the storage (and, where it reads [block.timestamp], of the
    time). *)

(** Checked read [a[i]] and checked write [a[i] = v] on arrays of any
    element type. *)
Definition index_at {A} (a : list A) (i : Z) : Revert + A :=
  if (0 <=? i) && (i <? Z.of_nat (length a)) then
    match a !! Z.to_nat i with
    | Some v => inr v
    | None => inl (Panic 50)
    end
  else inl (Panic 50).

Definition store_at {A} (a : list A) (i : Z) (v : A) : Revert + list A :=
  if (0 <=? i) && (i <? Z.of_nat (length a)) then inr (<[Z.to_nat i := v]> a)
  else inl (Panic 50).

Notation "'try!' x ':=' m 'in' k" :=
  (match m with inl err => inl err | inr x => k end)
  (at level 10, x name, m at level 100, k at level 200, only parsing).

(** [getAllEventIds] *)
Definition getAllEventIds (s : State) : list Z := allEventIds s.

(** The tuple returned by [getEvent]. *)
Module EventView.
Record t := mk {
  id : Z;
  title : string;
  startTime : Z;
  totalTickets : Z;
  remainingTickets : Z;
  organizer : address;
  status : EventStatus
}.
End EventView.

(** [getEvent]: the stored fields, and the status computed by
    [getEventStatus] at the same block timestamp. *)
Definition getEvent (now : Z) (_eventId : Z) : M EventView.t :=
  let! evt_exists := gets (λ s, Event.exists_ (event_at s _eventId)) in
  require evt_exists "Event does not exist" ;;
  let! evt := gets (λ s, event_at s _eventId) in
  let! status := getEventStatus now _eventId in
  ret (EventView.mk (Event.id evt) (Event.title evt) (Event.startTime evt)
         (Event.totalTickets evt) (Event.remainingTickets evt)
         (Event.organizer evt) status).

(** The six parallel arrays returned by [getAllEvents]. *)
Module AllEvents.
Record t := mk {
  ids : list Z;
  titles : list string;
  startTimes : list Z;
  totalTicketCounts : list Z;
  remainingTicketCounts : list Z;
  organizers : list Z
}.
End AllEvents.

(** The [for] loop of [getAllEvents]; [todo] counts the iterations left to
    run from index [i]. *)
Fixpoint allEvents_loop (s : State) (todo : nat) (i : Z) (acc : AllEvents.t)
    : Revert + AllEvents.t :=
  match todo with
  | O => inr acc
  | S todo' =>
    try! eid := index_at (allEventIds s) i in
    let evt := event_at s eid in
    try! ids := store_at (AllEvents.ids acc) i (Event.id evt) in
    try! titles := store_at (AllEvents.titles acc) i (Event.title evt) in
    try! startTimes := store_at (AllEvents.startTimes acc) i (Event.startTime evt) in
    try! totals :=
      store_at (AllEvents.totalTicketCounts acc) i (Event.totalTickets evt) in
    try! remainings :=
      store_at (AllEvents.remainingTicketCounts acc) i
        (Event.remainingTickets evt) in
    try! organizers := store_at (AllEvents.organizers acc) i (Event.organizer evt) in
    allEvents_loop s todo' (i + 1)
      (AllEvents.mk ids titles startTimes totals remainings organizers)
  end.

(** [getAllEvents] *)
Definition getAllEvents (s : State) : Revert + AllEvents.t :=
  let len := length (allEventIds s) in
  allEvents_loop s len 0
    (AllEvents.mk (replicate len 0) (replicate len "") (replicate len 0)
       (replicate len 0) (replicate len 0) (replicate len address0)).

(** The four parallel arrays returned by [getUserTickets]. *)
Module UserTickets.
Record t := mk {
  ticketIds : list Z;
  eventIds : list Z;
  eventTitles : list string;
  acquiredTimes : list Z
}.
End UserTickets.

(** The [for] loop of [getUserTickets]. *)
Fixpoint userTickets_loop (s : State) (_user : address) (userEventsList : list Z)
    (todo : nat) (i : Z) (acc : UserTickets.t) : Revert + UserTickets.t :=
  match todo with
  | O => inr acc
  | S todo' =>
    try! eventId := index_at userEventsList i in
    let tId := userTicket_at s eventId _user in
    try! ticketIds := store_at (UserTickets.ticketIds acc) i tId in
    try! eventIds := store_at (UserTickets.eventIds acc) i eventId in
    try! eventTitles :=
      store_at (UserTickets.eventTitles acc) i (Event.title (event_at s eventId)) in
    try! acquiredTimes :=
      store_at (UserTickets.acquiredTimes acc) i
        (Ticket.acquiredAt (ticket_at s tId)) in
    userTickets_loop s _user userEventsList todo' (i + 1)
      (UserTickets.mk ticketIds eventIds eventTitles acquiredTimes)
  end.

(** [getUserTickets] *)
Definition getUserTickets (s : State) (_user : address) : Revert + UserTickets.t :=
  let userEventsList := userEvents_at s _user in
  let len := length userEventsList in
  userTickets_loop s _user userEventsList len 0
    (UserTickets.mk (replicate len 0) (replicate len 0) (replicate len "")
       (replicate len 0)).

(** [getUserAttempts] *)
Definition getUserAttempts (s : State) (_user : address) : list Attempt.t :=
  userAttempts_at s _user.

(** ** More of the history *)

(** The successful claims of caller [a] along a history, oldest first, each
    as the event claimed and the ticket id returned. *)
Fixpoint won_by (a : address) (h : list (Call * Return)) : list (Z * Z) :=
  match h with
  | [] => []
  | (GrabTicket env e, Grabbed true _ t) :: h' =>
    if decide (msg_sender env = a) then (e, t) :: won_by a h' else won_by a h'
  | _ :: h' => won_by a h'
  end.

(** The attempts of caller [a] that returned an outcome, oldest first, as
    the entries [_recordAttempt] builds for them. *)
Fixpoint attempts_by (a : address) (h : list (Call * Return)) : list Attempt.t :=
  match h with
  | [] => []
  | (GrabTicket env e, Grabbed _ r _) :: h' =>
    if decide (msg_sender env = a)
    then Attempt.mk e a (block_timestamp env) r :: attempts_by a h'
    else attempts_by a h'
  | _ :: h' => attempts_by a h'
  end.

(** The grabTicket calls of a history that returned an outcome. *)
Fixpoint returned_grabs (h : list (Call * Return)) : nat :=
  match h with
  | [] => 0
  | (_, Grabbed _ _ _) :: h' => S (returned_grabs h')
  | _ :: h' => returned_grabs h'
  end.

(** All entries of all attempt logs. *)
Definition ledger_size (s : State) : nat :=
  map_fold (λ _ log n, (length log + n)%nat) 0%nat (userAttempts s).

(** [HInv2] ties the per-user storage to the history. *)
Record HInv2 (h : list (Call * Return)) (s : State) : Prop := mkHInv2 {
  h2_all_ids : allEventIds s = created_ids h;
  h2_created_seq : created_ids h = seqZ 1 (Z.of_nat (length (created_ids h)));
  h2_issued_seq : issued h = seqZ 1 (Z.of_nat (length (issued h)));
  h2_user_events : ∀ a, userEvents_at s a = (won_by a h).*1;
  h2_won : ∀ a e t, (e, t) ∈ won_by a h →
    hasTicket_at s e a = true ∧ userTicket_at s e a = t
    ∧ ∃ k, tickets s !! t = Some k ∧ Ticket.eventId k = e ∧ Ticket.owner k = a;
  h2_has : ∀ a e, hasTicket_at s e a = true → ∃ t, (e, t) ∈ won_by a h;
  h2_no_ticket : ∀ a e, hasTicket_at s e a = false → userTicket_at s e a = 0;
  h2_ticket_won : ∀ t k, tickets s !! t = Some k →
    (Ticket.eventId k, t) ∈ won_by (Ticket.owner k) h;
  h2_attempts : ∀ a, userAttempts_at s a = attempts_by a h;
  h2_ledger_size : ledger_size s = returned_grabs h
}.

(** [Inv3]: the ticket store is dense below the counter, no ticket belongs
    to the zero address, and a caller's log holds a Success entry for an
    event exactly when the caller is marked as holding its ticket. *)
Record Inv3 (s : State) : Prop := mkInv3 {
  inv3_dense : ∀ t, 1 ≤ t < nextTicketId s → is_Some (tickets s !! t);
  inv3_owner_nonzero : ∀ t k, tickets s !! t = Some k → Ticket.owner k ≠ address0;
  inv3_one_success : ∀ a e,
    log_successes e (userAttempts_at s a) = if hasTicket_at s e a then 1%nat else 0%nat
}.

(** ** Token metadata

    [tokenURI] and [_generateSVG] build their result with
    [abi.encodePacked] on strings, which is concatenation.  The two library
    functions they call, OpenZeppelin's [Strings.toString] and
    [Base64.encode], are parameters here. *)

(** The double-quote character, and a string wrapped in a pair of them. *)
Definition dq : string := String (Ascii.ascii_of_nat 34) EmptyString.
Definition quoted (x : string) : string := dq +:+ x +:+ dq.

(** [_generateSVG] *)
Definition _generateSVG (toString : Z → string) (Base64_encode : string → string)
    (title : string) (ticketId : Z) : string :=
  let part1 :=
    "<svg xmlns=" +:+ quoted "http://www.w3.org/2000/svg"
      +:+ " width=" +:+ quoted "350" +:+ " height=" +:+ quoted "200"
      +:+ " viewBox=" +:+ quoted "0 0 350 200" +:+ ">"
    +:+ "<defs><linearGradient id=" +:+ quoted "g"
      +:+ " x1=" +:+ quoted "0%" +:+ " y1=" +:+ quoted "0%"
      +:+ " x2=" +:+ quoted "100%" +:+ " y2=" +:+ quoted "100%" +:+ ">"
    +:+ "<stop offset=" +:+ quoted "0%"
      +:+ " style=" +:+ quoted "stop-color:#8B5CF6" +:+ "/>"
      +:+ "<stop offset=" +:+ quoted "100%"
      +:+ " style=" +:+ quoted "stop-color:#6366F1" +:+ "/>"
    +:+ "</linearGradient></defs>" in
  let part2 :=
    "<rect width=" +:+ quoted "350" +:+ " height=" +:+ quoted "200"
      +:+ " rx=" +:+ quoted "16" +:+ " fill=" +:+ quoted "url(#g)" +:+ "/>"
    +:+ "<text x=" +:+ quoted "175" +:+ " y=" +:+ quoted "40"
      +:+ " text-anchor=" +:+ quoted "middle" +:+ " fill=" +:+ quoted "white"
      +:+ " font-size=" +:+ quoted "14"
      +:+ " font-family=" +:+ quoted "sans-serif"
      +:+ " opacity=" +:+ quoted "0.8" +:+ ">TICKET</text>" in
  let part3 :=
    "<text x=" +:+ quoted "175" +:+ " y=" +:+ quoted "100"
      +:+ " text-anchor=" +:+ quoted "middle" +:+ " fill=" +:+ quoted "white"
      +:+ " font-size=" +:+ quoted "20"
      +:+ " font-family=" +:+ quoted "sans-serif"
      +:+ " font-weight=" +:+ quoted "bold" +:+ ">"
    +:+ title +:+ "</text>"
    +:+ "<text x=" +:+ quoted "175" +:+ " y=" +:+ quoted "160"
      +:+ " text-anchor=" +:+ quoted "middle" +:+ " fill=" +:+ quoted "white"
      +:+ " font-size=" +:+ quoted "32"
      +:+ " font-family=" +:+ quoted "monospace"
      +:+ " font-weight=" +:+ quoted "bold" +:+ ">#"
    +:+ toString ticketId +:+ "</text>"
    +:+ "</svg>" in
  Base64_encode (part1 +:+ part2 +:+ part3).

(** [tokenURI] *)
Definition tokenURI (toString : Z → string) (Base64_encode : string → string)
    (s : State) (tokenId : Z) : Revert + string :=
  if negb (Ticket.id (ticket_at s tokenId) =? 0) then
    let ticket := ticket_at s tokenId in
    let evt := event_at s (Ticket.eventId ticket) in
    let jsonPart1 :=
      "{" +:+ quoted "name" +:+ ":" +:+ dq +:+ Event.title evt +:+ " #"
        +:+ toString tokenId +:+ dq +:+ ","
      +:+ quoted "description" +:+ ":" +:+ dq +:+ "Event ticket for "
        +:+ Event.title evt +:+ dq +:+ "," in
    let jsonPart2 :=
      quoted "attributes" +:+ ":["
      +:+ "{" +:+ quoted "trait_type" +:+ ":" +:+ quoted "Event ID" +:+ ","
        +:+ quoted "value" +:+ ":" +:+ dq
        +:+ toString (Ticket.eventId ticket) +:+ dq +:+ "},"
      +:+ "{" +:+ quoted "trait_type" +:+ ":" +:+ quoted "Ticket ID" +:+ ","
        +:+ quoted "value" +:+ ":" +:+ dq +:+ toString tokenId +:+ dq +:+ "}]," in
    let jsonPart3 :=
      quoted "image" +:+ ":" +:+ dq +:+ "data:image/svg+xml;base64,"
      +:+ _generateSVG toString Base64_encode (Event.title evt) tokenId
      +:+ dq +:+ "}" in
    let json := jsonPart1 +:+ jsonPart2 +:+ jsonPart3 in
    inr ("data:application/json;base64," +:+ Base64_encode json)
  else inl (Error "Token does not exist").

(** ** The front end's copies of the status rule

    [components/ticket-engine/EventCard.tsx] ([updateCountdown]) and
    [app/event/[id]/page.tsx] ([updateStatus]) recompute an event's status
    every second from the fetched start time and remaining count, both
    [bigint]s, and the current time.  These are the statuses they set; the
    countdown text they also set is not modelled. *)

Definition eventCard_status (now startTime remainingTickets : Z) : EventStatus :=
  if now >=? startTime then
    if remainingTickets =? 0 then StatusSoldOut else StatusInProgress
  else StatusNotStarted.

Definition eventPage_status (now startTime remainingTickets : Z) : EventStatus :=
  if now <? startTime then StatusNotStarted
  else if remainingTickets =? 0 then StatusSoldOut
  else StatusInProgress.

(** ** The front end's transaction history

    [hooks/useTransactionHistory.ts].  The state is the list of records;
    [addTransaction] is the updater it passes to [setTransactions], which
    also says what it hands to [saveToStorage], if anything. *)

Inductive TxType := grab | create.

#[global] Instance TxType_eq_dec : EqDecision TxType.
Proof. solve_decision. Defined.

Module TransactionRecord.
Record t := mk {
  hash : string;
  type : TxType;
  eventId : option string;
  eventTitle : option string;
  userAddress : option string;
  success : bool;
  confirmTime : Z;
  gasUsed : string;
  gasPrice : string;
  gasCost : string;
  timestamp : Z
}.
End TransactionRecord.

(** [addTransaction]: the new state, and the list saved to storage. *)
Definition addTransaction (record : TransactionRecord.t)
    (prev : list TransactionRecord.t)
    : list TransactionRecord.t * option (list TransactionRecord.t) :=
  if existsb (λ tx, bool_decide (TransactionRecord.hash tx
                                   = TransactionRecord.hash record)) prev
  then (prev, None)
  else let updated := record :: prev in (updated, Some updated).

(** The state after a sequence of [addTransaction] calls, first call first. *)
Definition addTransactions (records : list TransactionRecord.t)
    (prev : list TransactionRecord.t) : list TransactionRecord.t :=
  foldl (λ st r, (addTransaction r st).1) prev records.

(** ** The event page's verdict on a claim

    [handleGrabTicket] in [app/event/[id]/page.tsx] waits for the receipt
    of its [grabTicket] transaction and decides from the receipt alone:
    [isSuccess = receipt.status === "success"].  A receipt's status says
    whether the transaction reverted.  The page then shows
    [AttemptResult.Success] when [isSuccess] holds and
    [AttemptResult.SoldOut] otherwise. *)

Definition receipt_status (r : Return) : string :=
  match r with
  | Reverted _ => "reverted"
  | _ => "success"
  end.

Definition handleGrabTicket_isSuccess (r : Return) : bool :=
  bool_decide (receipt_status r = "success").

Definition handleGrabTicket_result (r : Return) : AttemptResult :=
  if handleGrabTicket_isSuccess r then Success else SoldOut.

(** ** Closed forms, proved *)

Lemma createEvent_eval env t st n s :
  createEvent env t st n s =
    if negb (0 <? Z.of_nat (String.length t)) then
      (inl (Error "Title cannot be empty"), s)
    else if negb (0 <? n) then (inl (Error "Must have at least 1 ticket"), s)
    else if negb (block_timestamp env <? st) then
      (inl (Error "Start time must be in future"), s)
    else if nextEventId s <? MAX_UINT256 then
      (inr (nextEventId s), created env t st n s)
    else (inl (Panic 17), s).
Proof.
  unfold createEvent, bind, require, gets, modify, checked_succ, ret, revert.
  destruct (0 <? Z.of_nat (String.length t)); simpl; [|reflexivity].
  destruct (0 <? n); simpl; [|reflexivity].
  destruct (block_timestamp env <? st); simpl; [|reflexivity].
  destruct (nextEventId s <? MAX_UINT256); reflexivity.
Qed.

Lemma mint_eval to tokenId s :
  _mint to tokenId s =
    if to =? address0 then (inl (ERC721InvalidReceiver address0), s)
    else if ownerOf_at s tokenId =? address0 then (inr tt, minted to tokenId s)
    else (inl (ERC721InvalidSender address0),
          minted to tokenId
            (set_balances
               (<[ownerOf_at s tokenId :=
                    (balance_at s (ownerOf_at s tokenId) - 1) mod 2 ^ 256]>
                  (_balances s)) s)).
Proof.
  unfold _mint, bind, gets, modify, ret, revert.
  destruct (to =? address0); [reflexivity|].
  destruct (ownerOf_at s tokenId =? address0); reflexivity.
Qed.

Lemma grabTicket_eval env e s :
  grabTicket env e s =
    if negb (Event.exists_ (event_at s e)) then (inl NotFound, s)
    else if block_timestamp env <? Event.startTime (event_at s e) then
      (inr (false, NotStarted, 0), recorded env e NotStarted s)
    else if hasTicket_at s e (msg_sender env) then
      (inr (false, AlreadyOwnsTicket, 0), recorded env e AlreadyOwnsTicket s)
    else if Event.remainingTickets (event_at s e) =? 0 then
      (inr (false, SoldOut, 0), recorded env e SoldOut s)
    else if negb (nextTicketId s <? MAX_UINT256) then (inl (Panic 17), s)
    else if negb (0 <? Event.remainingTickets (event_at s e)) then
      (inl (Panic 17), set_nextTicketId (nextTicketId s + 1) s)
    else
      match _mint (msg_sender env) (nextTicketId s) (allotted env e s) with
      | (inl err, s') => (inl err, s')
      | (inr _, _) => (inr (true, Success, nextTicketId s), granted env e s)
      end.
Proof.
  unfold grabTicket, bind, require, gets, ret, revert.
  destruct (Event.exists_ (event_at s e)); simpl; [|reflexivity].
  destruct (block_timestamp env <? Event.startTime (event_at s e)); [reflexivity|].
  destruct (hasTicket_at s e (msg_sender env)); [reflexivity|].
  destruct (Event.remainingTickets (event_at s e) =? 0); [reflexivity|].
  unfold checked_succ, checked_pred, ret, revert, modify.
  destruct (nextTicketId s <? MAX_UINT256); simpl; [|reflexivity].
  change (event_at (set_nextTicketId (nextTicketId s + 1) s) e)
    with (event_at s e).
  destruct (0 <? Event.remainingTickets (event_at s e)); simpl; [|reflexivity].
  match goal with
  | |- context [_mint _ _ ?st] => change st with (allotted env e s)
  end.
  rewrite !mint_eval.
  destruct (msg_sender env =? address0); [reflexivity|].
  destruct (ownerOf_at _ _ =? address0); reflexivity.
Qed.

Lemma exec_grab_spec env e s : grab_spec env e s (exec (GrabTicket env e) s).
Proof.
  unfold exec, transact. rewrite grabTicket_eval.
  destruct (Event.exists_ (event_at s e)) eqn:Hex; simpl;
    [|by apply grab_not_found].
  destruct (Z.ltb_spec (block_timestamp env) (Event.startTime (event_at s e)));
    [by apply grab_not_started|].
  destruct (hasTicket_at s e (msg_sender env)) eqn:Hhas;
    [by apply grab_already|].
  destruct (Z.eqb_spec (Event.remainingTickets (event_at s e)) 0);
    [by apply grab_sold_out|].
  destruct (Z.ltb_spec (nextTicketId s) MAX_UINT256); simpl;
    [|apply grab_fault; auto].
  destruct (Z.ltb_spec 0 (Event.remainingTickets (event_at s e))); simpl;
    [|apply grab_fault; auto; lia].
  rewrite mint_eval.
  destruct (Z.eqb_spec (msg_sender env) address0); [apply grab_fault; auto|].
  change (ownerOf_at (allotted env e s) (nextTicketId s))
    with (ownerOf_at s (nextTicketId s)).
  destruct (Z.eqb_spec (ownerOf_at s (nextTicketId s)) address0);
    [by apply grab_success | apply grab_fault; auto].
Qed.

Lemma title_nonempty (t : string) :
  (0 <? Z.of_nat (String.length t)) = true ↔ t ≠ "".
Proof.
  destruct t; simpl; [split; [discriminate | congruence]|].
  split; [discriminate | intros _; apply Z.ltb_lt; lia].
Qed.

Lemma exec_create_spec env t st n s :
  create_spec env t st n s (exec (CreateEvent env t st n) s).
Proof.
  unfold exec, transact. rewrite createEvent_eval.
  destruct (0 <? Z.of_nat (String.length t)) eqn:Ht; simpl.
  2:{ apply create_invalid; [left; reflexivity|]. left.
      destruct t; [reflexivity|].
      apply Z.ltb_ge in Ht. simpl in Ht. lia. }
  apply title_nonempty in Ht.
  destruct (Z.ltb_spec 0 n); simpl.
  2:{ apply create_invalid; [right; left; reflexivity | lia]. }
  destruct (Z.ltb_spec (block_timestamp env) st); simpl.
  2:{ apply create_invalid; [right; right; reflexivity | lia]. }
  destruct (Z.ltb_spec (nextEventId s) MAX_UINT256).
  - apply create_ok; auto; lia.
  - apply create_overflow; auto; lia.
Qed.

(** ** Runs *)

Lemma run_app cs1 cs2 s :
  run (cs1 ++ cs2) s =
    ((run cs1 s).1 ++ (run cs2 (run cs1 s).2).1, (run cs2 (run cs1 s).2).2).
Proof.
  revert s. induction cs1 as [|c cs1 IH]; intros s; simpl.
  - by destruct (run cs2 s).
  - destruct (exec c s) as [r s1]. rewrite IH.
    destruct (run cs1 s1) as [h1 s2]; simpl.
    by destruct (run cs2 s2).
Qed.

Lemma run_snoc cs c s :
  run (cs ++ [c]) s =
    ((run cs s).1 ++ [(c, (exec c (run cs s).2).1)], (exec c (run cs s).2).2).
Proof.
  rewrite run_app. simpl. by destruct (exec c (run cs s).2).
Qed.

(** Induction over the runs from the constructor's storage. *)
Lemma run_ind (P : list (Call * Return) → State → Prop) :
  P [] initial →
  (∀ h s c, P h s → P (h ++ [(c, (exec c s).1)]) (exec c s).2) →
  ∀ cs, P (run cs initial).1 (run cs initial).2.
Proof.
  intros H0 Hstep cs. induction cs as [|c cs IH] using rev_ind; [exact H0|].
  rewrite run_snoc. simpl. by apply Hstep.
Qed.

Lemma reachable_ind (P : State → Prop) :
  P initial → (∀ s c, P s → P (exec c s).2) → ∀ s, reachable s → P s.
Proof.
  intros H0 Hstep s [cs <-].
  apply (run_ind (λ _ s, P s)); auto.
Qed.

Lemma issued_app h1 h2 : issued (h1 ++ h2) = issued h1 ++ issued h2.
Proof.
  induction h1 as [|[c r] h1 IH]; simpl; [done|].
  destruct r as [|[] ? ?|]; simpl; by rewrite ?IH.
Qed.

Lemma issued_for_app e h1 h2 :
  issued_for e (h1 ++ h2) = issued_for e h1 ++ issued_for e h2.
Proof.
  induction h1 as [|[c r] h1 IH]; simpl; [done|].
  destruct c, r as [|[] ? ?|]; simpl; try case_decide; simpl; by rewrite ?IH.
Qed.

Lemma issued_for_issued e h t : t ∈ issued_for e h → t ∈ issued h.
Proof.
  induction h as [|[c r] h IH]; simpl; [done|].
  destruct c, r as [|[] ? ?|]; simpl; try case_decide;
    rewrite ?elem_of_cons; tauto.
Qed.

Lemma issued_for_sorted e h :
  StronglySorted Z.lt (issued h) → StronglySorted Z.lt (issued_for e h).
Proof.
  induction h as [|[c r] h IH]; simpl; [done|].
  destruct c, r as [|[] ? ?|]; simpl; try case_decide;
    rewrite ?StronglySorted_cons; try done; intros [Hall Hs]; auto.
  split; [|auto]. rewrite Forall_forall in Hall |- *.
  intros x Hx. by apply Hall, (issued_for_issued e).
Qed.

Lemma created_ids_app h1 h2 :
  created_ids (h1 ++ h2) = created_ids h1 ++ created_ids h2.
Proof.
  induction h1 as [|[c r] h1 IH]; simpl; [done|].
  destruct r; simpl; by rewrite ?IH.
Qed.

(** ** Reading updated storage *)

Lemma rd_insert {K V} `{Countable K} (z : V) (m : gmap K V) (k k' : K) (v : V) :
  rd z (<[k := v]> m) k' = if decide (k = k') then v else rd z m k'.
Proof. unfold rd. rewrite lookup_insert. by case_decide. Qed.

Lemma rd_insert_eq {K V} `{Countable K} (z : V) (m : gmap K V) (k : K) (v : V) :
  rd z (<[k := v]> m) k = v.
Proof. rewrite rd_insert. by case_decide. Qed.

Lemma rd_insert_ne {K V} `{Countable K} (z : V) (m : gmap K V) (k k' : K) (v : V) :
  k ≠ k' → rd z (<[k := v]> m) k' = rd z m k'.
Proof. intros. rewrite rd_insert. by case_decide. Qed.

Lemma rd_Some {K V} `{Countable K} (z : V) (m : gmap K V) (k : K) (v : V) :
  m !! k = Some v → rd z m k = v.
Proof. unfold rd. by intros ->. Qed.

Lemma rd_None {K V} `{Countable K} (z : V) (m : gmap K V) (k : K) :
  m !! k = None → rd z m k = z.
Proof. unfold rd. by intros ->. Qed.

Lemma event_at_created env t st n s e :
  event_at (created env t st n s) e =
    if decide (nextEventId s = e)
    then Event.mk (nextEventId s) t st n n (msg_sender env) true
    else event_at s e.
Proof. apply rd_insert. Qed.

Lemma event_at_granted env e s e' :
  event_at (granted env e s) e' =
    if decide (e = e')
    then Event.set_remainingTickets
           (Event.remainingTickets (event_at s e) - 1) (event_at s e)
    else event_at s e'.
Proof. apply rd_insert. Qed.

Lemma eventTickets_at_granted env e s e' :
  eventTickets_at (granted env e s) e' =
    if decide (e = e') then eventTickets_at s e ++ [nextTicketId s]
    else eventTickets_at s e'.
Proof. apply rd_insert. Qed.

Lemma hasTicket_at_granted env e s e' a :
  hasTicket_at (granted env e s) e' a =
    if decide ((e, msg_sender env) = (e', a)) then true else hasTicket_at s e' a.
Proof. apply rd_insert. Qed.

Lemma userTicket_at_granted env e s e' a :
  userTicket_at (granted env e s) e' a =
    if decide ((e, msg_sender env) = (e', a)) then nextTicketId s
    else userTicket_at s e' a.
Proof. apply rd_insert. Qed.

Lemma tickets_granted env e s t :
  tickets (granted env e s) !! t =
    if decide (nextTicketId s = t)
    then Some (Ticket.mk (nextTicketId s) e (msg_sender env) (block_timestamp env))
    else tickets s !! t.
Proof. simpl. rewrite lookup_insert. by case_decide. Qed.

Lemma userAttempts_at_recorded env e r s a :
  userAttempts_at (recorded env e r s) a =
    if decide (msg_sender env = a)
    then userAttempts_at s a
           ++ [Attempt.mk e (msg_sender env) (block_timestamp env) r]
    else userAttempts_at s a.
Proof.
  unfold userAttempts_at at 1. simpl. rewrite rd_insert.
  case_decide; by subst.
Qed.

(** ** The storage invariant holds in every reachable state *)

Lemma Inv_initial : Inv initial.
Proof.
  split; simpl; try done; try lia.
  intros e. split; [by intros ?%elem_of_nil | lia].
Qed.

Lemma Inv_recorded env e r s : Inv s → Inv (recorded env e r s).
Proof. intros []. by split. Qed.

Lemma Inv_created env t st n s :
  1 ≤ n → nextEventId s < MAX_UINT256 → Inv s → Inv (created env t st n s).
Proof.
  intros Hn Hmax [].
  split; try (simpl; lia); try done.
  - intros e. rewrite event_at_created. case_decide; simpl.
    + intros _. lia.
    + intros He. specialize (inv_event0 e He). lia.
  - intros e. rewrite event_at_created. case_decide; simpl; [done|].
    intros. apply inv_event_range0. lia.
  - intros e. rewrite event_at_created. case_decide; simpl; [done|].
    apply inv_no_event0.
  - intros e. rewrite event_at_created.
    change (eventTickets_at (created env t st n s) e) with (eventTickets_at s e).
    case_decide; simpl.
    + intros _. subst e. rewrite inv_no_event0; [simpl; lia|].
      destruct (Event.exists_ (event_at s (nextEventId s))) eqn:Hex; [|done].
      specialize (inv_event0 _ Hex). lia.
    + apply inv_sold0.
  - intros e. simpl. rewrite elem_of_app, list_elem_of_singleton, inv_listed0. lia.
Qed.

Lemma Inv_granted env e s :
  Event.exists_ (event_at s e) = true →
  hasTicket_at s e (msg_sender env) = false →
  0 < Event.remainingTickets (event_at s e) →
  Inv s → Inv (granted env e s).
Proof.
  intros Hex Hhas Hrem [].
  split; try (simpl; lia); try done.
  - intros e'. rewrite event_at_granted. case_decide; simpl.
    + subst e'. intros _. specialize (inv_event0 _ Hex). lia.
    + apply inv_event0.
  - intros e'. rewrite event_at_granted. case_decide; simpl.
    + by subst e'.
    + apply inv_event_range0.
  - intros e'. rewrite event_at_granted, eventTickets_at_granted.
    case_decide; simpl; [subst e'; congruence | apply inv_no_event0].
  - intros e'. rewrite event_at_granted, eventTickets_at_granted.
    case_decide; simpl; [|apply inv_sold0].
    subst e'. intros _. rewrite length_app. simpl.
    specialize (inv_sold0 _ Hex). lia.
  - intros t k. rewrite tickets_granted.
    rewrite hasTicket_at_granted, userTicket_at_granted.
    case_decide as Ht.
    + intros [= <-]. simpl. rewrite !decide_True by done.
      change (nextTicketId (granted env e s)) with (nextTicketId s + 1).
      split_and!; try done; try lia.
      subst t. apply rd_insert_eq.
    + intros Hk. destruct (inv_ticket0 _ _ Hk) as (? & ? & Hh & Hu & Ho).
      change (nextTicketId (granted env e s)) with (nextTicketId s + 1).
      assert (ownerOf_at (granted env e s) t = Ticket.owner k) as Ho'.
      { unfold ownerOf_at. simpl. by rewrite rd_insert_ne. }
      case_decide as Hp.
      * injection Hp as He Ha. rewrite <- He, <- Ha in Hh. congruence.
      * repeat split; auto; lia.
  - intros t Ht. change (nextTicketId (granted env e s)) with (nextTicketId s + 1) in Ht.
    unfold ownerOf_at. simpl. rewrite rd_insert_ne by lia.
    apply inv_owner0. lia.
Qed.

Lemma Inv_exec c s : Inv s → Inv (exec c s).2.
Proof.
  intros HI. destruct c as [env t st n|env e].
  - destruct (exec_create_spec env t st n s); simpl; auto using Inv_created.
  - destruct (exec_grab_spec env e s); simpl;
      auto using Inv_recorded, Inv_granted.
Qed.

Lemma reachable_Inv s : reachable s → Inv s.
Proof. apply reachable_ind; [apply Inv_initial | intros; by apply Inv_exec]. Qed.

(** ** Counting [Success] entries in the attempt logs *)

Lemma log_successes_app e l1 l2 :
  log_successes e (l1 ++ l2) = (log_successes e l1 + log_successes e l2)%nat.
Proof. unfold log_successes. by rewrite filter_app, length_app. Qed.

Lemma log_successes_one e e' a now r :
  log_successes e [Attempt.mk e' a now r] =
    if decide (e' = e ∧ r = Success) then 1%nat else 0%nat.
Proof.
  unfold log_successes. rewrite filter_cons. simpl.
  repeat case_decide; simpl; try done; tauto.
Qed.

Lemma fold_successes_push e (m : gmap Z (list Attempt.t)) a x :
  map_fold (λ _ log n, (log_successes e log + n)%nat) 0%nat
      (<[a := rd [] m a ++ [x]]> m) =
    (map_fold (λ _ log n, (log_successes e log + n)%nat) 0%nat m
       + log_successes e [x])%nat.
Proof.
  set (f := λ (_ : Z) (log : list Attempt.t) (n : nat), (log_successes e log + n)%nat).
  assert (Hcomm : ∀ (j1 j2 : Z) z1 z2 y, f j1 z1 (f j2 z2 y) = f j2 z2 (f j1 z1 y)).
  { intros. unfold f. lia. }
  rewrite <- insert_delete_eq.
  rewrite (map_fold_insert_L f);
    [|intros; apply Hcomm|apply lookup_delete_eq].
  destruct (m !! a) as [l|] eqn:Hl.
  - rewrite (rd_Some _ _ _ _ Hl).
    rewrite (map_fold_delete_L f 0%nat a l m); [|intros; apply Hcomm|done].
    unfold f. rewrite log_successes_app. lia.
  - rewrite (rd_None _ _ _ Hl), delete_id by done.
    unfold f. simpl. lia.
Qed.

Lemma ledger_successes_recorded e env e' r s :
  ledger_successes e (recorded env e' r s) =
    (ledger_successes e s
       + if decide (e' = e ∧ r = Success) then 1 else 0)%nat.
Proof.
  unfold ledger_successes, recorded. simpl.
  unfold userAttempts_at. rewrite fold_successes_push.
  by rewrite log_successes_one.
Qed.

(** ** The history invariant holds along every run *)

Lemma HInv_initial : HInv [] initial.
Proof.
  split; simpl; try constructor; try done.
  - by intros ?%elem_of_nil.
  - intros (k & Hk & _). by rewrite lookup_empty in Hk.
  - by intros ?%elem_of_nil.
Qed.

(** A call that neither creates an event nor hands out a ticket. *)
Lemma HInv_idle h s c r s' :
  issued [(c, r)] = [] → created_ids [(c, r)] = [] →
  (∀ e, issued_for e [(c, r)] = []) →
  nextTicketId s' = nextTicketId s → nextEventId s' = nextEventId s →
  events s' = events s → tickets s' = tickets s →
  eventTickets s' = eventTickets s →
  (∀ e, ledger_successes e s' = ledger_successes e s) →
  HInv h s → HInv (h ++ [(c, r)]) s'.
Proof.
  intros Hi Hc Hf Ht He Hev Htk Het Hl [].
  split; rewrite ?issued_app, ?created_ids_app, ?Hi, ?Hc, ?app_nil_r, ?Ht, ?He;
    try done.
  - intros e. unfold event_at. rewrite Hev. apply hinv_created0.
  - intros e. unfold eventTickets_at.
    rewrite issued_for_app, Hf, app_nil_r, Het. apply hinv_event_tickets0.
  - intros e t. rewrite issued_for_app, Hf, app_nil_r, Htk. apply hinv_store0.
  - intros e. rewrite issued_for_app, Hf, app_nil_r, Hl. apply hinv_ledger0.
Qed.

Lemma Forall_range_weaken (l : list Z) (a b : Z) :
  a ≤ b → Forall (λ t, 1 ≤ t < a) l → Forall (λ t, 1 ≤ t < b) l.
Proof.
  intros Hab Hl. eapply Forall_impl; [exact Hl|]. simpl. intros. lia.
Qed.

Lemma sorted_snoc_fresh (l : list Z) (n : Z) :
  Forall (λ t, 1 ≤ t < n) l → StronglySorted Z.lt l → StronglySorted Z.lt (l ++ [n]).
Proof.
  intros Hr Hs. apply StronglySorted_app. split_and!; [|done|repeat constructor].
  intros x y Hx ->%list_elem_of_singleton.
  rewrite Forall_forall in Hr. specialize (Hr _ Hx). lia.
Qed.

Lemma HInv_created h s env t st n :
  Inv s → nextEventId s < MAX_UINT256 → HInv h s →
  HInv (h ++ [(CreateEvent env t st n, Created (nextEventId s))])
    (created env t st n s).
Proof.
  intros HI Hmax [].
  split; rewrite ?issued_app, ?created_ids_app;
    cbn [issued created_ids]; rewrite ?app_nil_r; try done.
  - apply Forall_app. split; [|repeat constructor; destruct HI; simpl; lia].
    eapply Forall_range_weaken; [|done]. simpl. lia.
  - by apply sorted_snoc_fresh.
  - intros e. rewrite event_at_created, elem_of_app, list_elem_of_singleton.
    case_decide; simpl; [split; auto|].
    rewrite hinv_created0. split; [auto|]. intros [?|?]; [done|congruence].
  - intros e. rewrite issued_for_app. simpl. rewrite app_nil_r.
    apply hinv_event_tickets0.
  - intros e k. rewrite issued_for_app. simpl. rewrite app_nil_r.
    apply hinv_store0.
  - intros e. rewrite issued_for_app. simpl. rewrite app_nil_r.
    apply hinv_ledger0.
  - rewrite length_app. simpl. lia.
Qed.

Lemma HInv_granted h s env e :
  Inv s → HInv h s →
  HInv (h ++ [(GrabTicket env e, Grabbed true Success (nextTicketId s))])
    (granted env e s).
Proof.
  intros HI [].
  assert (Hfresh : tickets s !! nextTicketId s = None).
  { destruct (tickets s !! nextTicketId s) as [k|] eqn:Hk; [|done].
    destruct (inv_ticket _ HI _ _ Hk). lia. }
  split; rewrite ?issued_app, ?created_ids_app;
    cbn [issued created_ids]; rewrite ?app_nil_r; try done.
  - apply Forall_app. split; [|repeat constructor; destruct HI; simpl; lia].
    eapply Forall_range_weaken; [|done]. simpl. lia.
  - by apply sorted_snoc_fresh.
  - intros e'. rewrite event_at_granted. case_decide; simpl; [|done].
    subst e'. apply hinv_created0.
  - intros e'. rewrite eventTickets_at_granted, issued_for_app. simpl.
    case_decide; [subst e'; by rewrite hinv_event_tickets0|].
    rewrite app_nil_r. apply hinv_event_tickets0.
  - intros e' t. rewrite issued_for_app, tickets_granted.
    cbn [issued_for]. case_decide as Ht.
    + subst t. split.
      * intros (k & [= <-] & <-). simpl. rewrite decide_True by done.
        apply elem_of_app. right. by apply list_elem_of_singleton.
      * intros [Hin|Hin]%elem_of_app.
        -- apply hinv_store0 in Hin as (k & Hk & _). congruence.
        -- case_decide; [|by apply elem_of_nil in Hin].
           subst e'. eexists. split; [done|done].
    + rewrite hinv_store0. rewrite elem_of_app. split; [auto|].
      intros [?|Hin]; [done|]. case_decide; [|by apply elem_of_nil in Hin].
      apply list_elem_of_singleton in Hin. congruence.
  - intros e'. unfold granted. rewrite ledger_successes_recorded.
    rewrite issued_for_app, length_app. cbn [issued_for].
    change (ledger_successes e' (minted _ _ (allotted env e s)))
      with (ledger_successes e' s).
    rewrite hinv_ledger0.
    repeat case_decide; simpl; try lia; tauto.
  - rewrite length_app. simpl. lia.
Qed.

Lemma HInv_exec h s c :
  Inv s → HInv h s → HInv (h ++ [(c, (exec c s).1)]) (exec c s).2.
Proof.
  intros HI HH. destruct c as [env t st n|env e].
  - destruct (exec_create_spec env t st n s); simpl.
    + by apply (HInv_idle h s).
    + by apply (HInv_idle h s).
    + by apply HInv_created.
  - destruct (exec_grab_spec env e s); simpl.
    + by apply (HInv_idle h s).
    + apply (HInv_idle h s); try done.
      intros e'. rewrite ledger_successes_recorded.
      rewrite decide_False; [lia|]. by intros [_ ?].
    + apply (HInv_idle h s); try done.
      intros e'. rewrite ledger_successes_recorded.
      rewrite decide_False; [lia|]. by intros [_ ?].
    + apply (HInv_idle h s); try done.
      intros e'. rewrite ledger_successes_recorded.
      rewrite decide_False; [lia|]. by intros [_ ?].
    + by apply (HInv_idle h s).
    + by apply HInv_granted.
Qed.

(** Both invariants hold along every run. *)
Lemma run_invariants cs :
  Inv (run cs initial).2 ∧ HInv (run cs initial).1 (run cs initial).2.
Proof.
  apply (run_ind (λ h s, Inv s ∧ HInv h s)).
  - split; [apply Inv_initial | apply HInv_initial].
  - intros h s c [HI HH]. split; [by apply Inv_exec | by apply HInv_exec].
Qed.

(** ** The loop of [getRecentTickets] *)

Lemma index_reverse (a : list Z) (k : nat) (v : Z) :
  reverse a !! k = Some v →
  checked_sub (Z.of_nat (length a)) 1 = inr (Z.of_nat (length a) - 1)
  ∧ checked_sub (Z.of_nat (length a) - 1) (Z.of_nat k)
      = inr (Z.of_nat (length a) - 1 - Z.of_nat k)
  ∧ index a (Z.of_nat (length a) - 1 - Z.of_nat k) = inr v.
Proof.
  intros [Hv Hk]%reverse_lookup_Some.
  unfold checked_sub, index.
  rewrite !(proj2 (Z.leb_le _ _)) by lia.
  rewrite (proj2 (Z.ltb_lt _ _)) by lia. simpl.
  replace (Z.to_nat (Z.of_nat (length a) - 1 - Z.of_nat k))
    with (length a - S k)%nat by lia.
  by rewrite Hv.
Qed.

Lemma store_in_range (a : list Z) (k : nat) (v : Z) :
  (k < length a)%nat → store a (Z.of_nat k) v = inr (<[k := v]> a).
Proof.
  intros Hk. unfold store.
  rewrite (proj2 (Z.leb_le _ _)) by lia.
  rewrite (proj2 (Z.ltb_lt _ _)) by lia. simpl.
  by rewrite Nat2Z.id.
Qed.

Lemma take_snoc_insert (a : list Z) (k : nat) (v : Z) :
  (k < length a)%nat → take (S k) (<[k := v]> a) = take k a ++ [v].
Proof.
  intros Hk.
  rewrite (take_S_r _ _ v) by (by apply list_lookup_insert_eq).
  by rewrite take_insert_ge.
Qed.

Lemma recent_loop_spec s evt (todo k : nat) ids os ts :
  length ids = (k + todo)%nat → length os = (k + todo)%nat →
  length ts = (k + todo)%nat → (k + todo ≤ length evt)%nat →
  recent_loop s evt (Z.of_nat (length evt)) todo (Z.of_nat k) (mkRecent ids os ts) =
    let new := take todo (drop k (reverse evt)) in
    inr (mkRecent
           (take k ids ++ new)
           (take k os ++ ((λ t, Ticket.owner (ticket_at s t)) <$> new))
           (take k ts ++ ((λ t, Ticket.acquiredAt (ticket_at s t)) <$> new))).
Proof.
  revert k ids os ts. induction todo as [|todo IH]; intros k ids os ts Hi Ho Ht Hlen.
  - simpl. rewrite !app_nil_r, !take_ge by lia. done.
  - destruct (reverse evt !! k) as [v|] eqn:Hv.
    2:{ apply lookup_ge_None in Hv. rewrite length_reverse in Hv. lia. }
    destruct (index_reverse _ _ _ Hv) as (H1 & H2 & H3).
    cbn [recent_loop ticketIds owners acquiredTimes].
    rewrite H1, H2, H3, !store_in_range by lia.
    replace (Z.of_nat k + 1) with (Z.of_nat (S k)) by lia.
    rewrite IH by (rewrite ?length_insert; lia).
    cbn zeta. rewrite !take_snoc_insert by lia.
    rewrite (drop_S _ _ _ Hv). simpl.
    by rewrite <- !(assoc_L (++)).
Qed.

Lemma getRecentTickets_eval s e limit :
  getRecentTickets s e limit =
    let ids := take (Z.to_nat limit) (reverse (eventTickets_at s e)) in
    inr (mkRecent ids
           ((λ t, Ticket.owner (ticket_at s t)) <$> ids)
           ((λ t, Ticket.acquiredAt (ticket_at s t)) <$> ids)).
Proof.
  unfold getRecentTickets. cbn zeta.
  set (evt := eventTickets_at s e).
  set (n := Z.to_nat (if Z.of_nat (length evt) <? limit
                      then Z.of_nat (length evt) else limit)).
  assert (Hn : n = min (Z.to_nat limit) (length evt)).
  { unfold n. destruct (Z.ltb_spec (Z.of_nat (length evt)) limit); lia. }
  rewrite (recent_loop_spec s evt n 0) by (rewrite ?length_replicate; lia).
  cbn zeta. rewrite !take_0, drop_0. simpl.
  assert (Ht : take n (reverse evt) = take (Z.to_nat limit) (reverse evt)).
  { rewrite Hn. destruct (Nat.min_spec (Z.to_nat limit) (length evt))
      as [[_ ->]|[? ->]]; [done|].
    by rewrite !take_ge by (rewrite length_reverse; lia). }
  by rewrite Ht.
Qed.

(** ** What later calls leave alone *)

Lemma event_kept_exec c s e :
  Inv s → Event.exists_ (event_at s e) = true →
  Event.exists_ (event_at (exec c s).2 e) = true
  ∧ Event.totalTickets (event_at (exec c s).2 e) = Event.totalTickets (event_at s e).
Proof.
  intros HI Hex. destruct c as [env t st n|env e'].
  - destruct (exec_create_spec env t st n s); simpl; auto.
    rewrite event_at_created. case_decide; [|done].
    destruct (inv_event _ HI _ Hex) as (_ & ? & _). lia.
  - destruct (exec_grab_spec env e' s); simpl; auto.
    rewrite event_at_granted. case_decide; [|done]. by subst e'.
Qed.

Lemma event_kept_run cs s e :
  Inv s → Event.exists_ (event_at s e) = true →
  Inv (run cs s).2
  ∧ Event.exists_ (event_at (run cs s).2 e) = true
  ∧ Event.totalTickets (event_at (run cs s).2 e) = Event.totalTickets (event_at s e).
Proof.
  revert s. induction cs as [|c cs IH]; intros s HI Hex; [done|].
  simpl. destruct (exec c s) as [r s1] eqn:Hc.
  destruct (event_kept_exec c s e HI Hex) as [Hex1 Ht1].
  rewrite Hc in Hex1, Ht1. simpl in Hex1, Ht1.
  assert (HI1 : Inv s1) by (pose proof (Inv_exec c s HI) as H; by rewrite Hc in H).
  destruct (IH s1 HI1 Hex1) as (? & ? & ?).
  destruct (run cs s1) as [h s2]. simpl in *. split_and!; [done|done|congruence].
Qed.

Lemma ticket_kept_exec c s t k :
  Inv s → tickets s !! t = Some k → tickets (exec c s).2 !! t = Some k.
Proof.
  intros HI Hk. destruct c as [env ti st n|env e].
  - by destruct (exec_create_spec env ti st n s).
  - destruct (exec_grab_spec env e s); simpl; auto.
    change (<[nextTicketId s := _]> (tickets s) !! t)
      with (tickets (granted env e s) !! t).
    rewrite tickets_granted. case_decide; [|done].
    destruct (inv_ticket _ HI _ _ Hk) as (_ & ? & _). lia.
Qed.

Lemma ticket_kept_run cs s t k :
  Inv s → tickets s !! t = Some k → tickets (run cs s).2 !! t = Some k.
Proof.
  revert s. induction cs as [|c cs IH]; intros s HI Hk; [done|].
  simpl. destruct (exec c s) as [r s1] eqn:Hc.
  pose proof (Inv_exec c s HI) as HI1.
  pose proof (ticket_kept_exec c s t k HI Hk) as Hk1.
  rewrite Hc in HI1, Hk1. simpl in HI1, Hk1.
  specialize (IH s1 HI1 Hk1). by destruct (run cs s1).
Qed.

(** ** The sample run, evaluated *)

Example scenario_returns :
  (run scenario initial).1.*2 =
    [ Created 1; Grabbed false NotStarted 0; Grabbed true Success 1;
      Grabbed false AlreadyOwnsTicket 0; Grabbed true Success 2;
      Grabbed false SoldOut 0 ].
Proof. vm_compute. reflexivity. Qed.

Example scenario_remaining :
  Event.remainingTickets (event_at (run scenario initial).2 1) = 0.
Proof. vm_compute. reflexivity. Qed.

Example scenario_recent :
  getRecentTickets (run scenario initial).2 1 5 =
    inr (mkRecent [2; 1] [bob; alice] [150; 150]).
Proof. vm_compute. reflexivity. Qed.

Example create_rejects :
  (exec (CreateEvent (mkEnv organizer 20) "" 120 10) initial).1
    = Reverted (Error "Title cannot be empty")
  ∧ (exec (CreateEvent (mkEnv organizer 20) "X" 10 10) initial).1
    = Reverted (Error "Start time must be in future")
  ∧ (exec (CreateEvent (mkEnv organizer 20) "X" 120 0) initial).1
    = Reverted (Error "Must have at least 1 ticket").
Proof. vm_compute. auto. Qed.

(** ** The claims *)

(** C1. Along every run of createEvent and grabTicket calls, every created
    event keeps [0 <= remainingTickets <= totalTickets]; no later call
    changes its [totalTickets]; and the successful claims for it, counted in
    the history of calls, in the attempt logs, or in the event's ticket
    list, number exactly [totalTickets - remainingTickets], hence at most
    [totalTickets]. *)
Theorem C1_no_oversell (cs cs' : list Call) (e : Z) :
  let h := (run cs initial).1 in
  let s := (run cs initial).2 in
  let s' := (run cs' s).2 in
  let total := Event.totalTickets (event_at s e) in
  let remaining := Event.remainingTickets (event_at s e) in
  e ∈ created_ids h →
  0 ≤ remaining ≤ total
  ∧ Event.totalTickets (event_at s' e) = total
  ∧ Z.of_nat (length (issued_for e h)) = total - remaining
  ∧ Z.of_nat (ledger_successes e s) = total - remaining
  ∧ Z.of_nat (length (eventTickets_at s e)) = total - remaining
  ∧ Z.of_nat (length (issued_for e h)) ≤ total.
Proof.
  intros h s s' total remaining Hin.
  destruct (run_invariants cs) as [HI HH]. fold h s in HI, HH.
  apply (hinv_created _ _ HH) in Hin.
  destruct (inv_event _ HI _ Hin) as (_ & _ & _ & Hrem).
  pose proof (inv_sold _ HI _ Hin) as Hsold.
  destruct (event_kept_run cs' s e HI Hin) as (_ & _ & Htot).
  rewrite (hinv_ledger _ _ HH), <- (hinv_event_tickets _ _ HH).
  fold total remaining in Hrem, Hsold. split_and!; try done; lia.
Qed.

Lemma C1_no_oversell_witness :
  let s := (run scenario initial).2 in
  0 ≤ Event.remainingTickets (event_at s 1) ≤ Event.totalTickets (event_at s 1)
  ∧ Z.of_nat (ledger_successes 1 s)
      = Event.totalTickets (event_at s 1) - Event.remainingTickets (event_at s 1).
Proof.
  assert (Hin : 1 ∈ created_ids (run scenario initial).1).
  { apply list_elem_of_In. vm_compute. auto. }
  destruct (C1_no_oversell scenario [GrabTicket (mkEnv carol 200) 1] 1 Hin)
    as (H1 & _ & _ & H2 & _).
  exact (conj H1 H2).
Defined.

Lemma grab_not_found_iff env e s :
  (exec (GrabTicket env e) s).1 = Reverted NotFound
  ↔ Event.exists_ (event_at s e) = false.
Proof.
  unfold exec, transact. rewrite grabTicket_eval.
  destruct (Event.exists_ (event_at s e)); simpl; [|done].
  destruct (_ <? _); simpl; [done|].
  destruct (hasTicket_at _ _ _); simpl; [done|].
  destruct (_ =? _); simpl; [done|].
  destruct (_ <? _); simpl; [|done].
  destruct (_ <? _); simpl; [|done].
  rewrite mint_eval.
  destruct (_ =? _); simpl; [done|].
  destruct (_ =? _); simpl; done.
Qed.

(** C2. The checks of grabTicket run in the order existence, timing,
    duplicate, exhaustion.  For an event that does not exist the call
    reverts with "Event does not exist", whatever the timestamp, the
    caller's holder flag and the remaining count read as, and it reverts
    with that reason for no other cause.  For an existing event: before the
    start time the outcome is NotStarted whatever the other two conditions
    are (in particular when the caller already holds a ticket and none
    remain); from the start time on, a caller who holds a ticket gets
    AlreadyOwnsTicket whatever the remaining count is; and SoldOut is
    returned exactly when the event is active, the caller holds no ticket
    and none remain. *)
Theorem C2_check_order (env : Env) (e : Z) (s : State) :
  let now := block_timestamp env in
  let start := Event.startTime (event_at s e) in
  let has := hasTicket_at s e (msg_sender env) in
  let remaining := Event.remainingTickets (event_at s e) in
  let outcome := (exec (GrabTicket env e) s).1 in
  (Event.exists_ (event_at s e) = false → outcome = Reverted NotFound)
  ∧ (outcome = Reverted NotFound → Event.exists_ (event_at s e) = false)
  ∧ (∀ ok r tid, outcome = Grabbed ok r tid →
       Event.exists_ (event_at s e) = true)
  ∧ (Event.exists_ (event_at s e) = true →
     (now < start → outcome = Grabbed false NotStarted 0)
     ∧ (now < start → has = true → remaining = 0 →
          outcome = Grabbed false NotStarted 0)
     ∧ (start ≤ now → has = true → outcome = Grabbed false AlreadyOwnsTicket 0)
     ∧ (∀ ok tid, outcome = Grabbed ok SoldOut tid ↔
          ok = false ∧ tid = 0 ∧ start ≤ now ∧ has = false ∧ remaining = 0)).
Proof.
  intros now start has remaining outcome.
  unfold outcome, now, start, has, remaining.
  split_and!; [apply grab_not_found_iff..| |].
  { intros ok r tid Hret.
    destruct (Event.exists_ (event_at s e)) eqn:Hex; [done|].
    apply (grab_not_found_iff env) in Hex. congruence. }
  intros Hex.
  destruct (exec_grab_spec env e s); simpl; try congruence.
  - split_and!; try done; try lia.
    intros ok tid. split; [discriminate | lia].
  - split_and!; try done; try lia.
    intros ok tid. split; [discriminate | intros (_ & _ & _ & ? & _); congruence].
  - split_and!; try lia; try congruence.
    intros ok tid. split; [by intros [= <- <-] | by intros (-> & -> & _)].
  - split_and!; try lia; try congruence.
    intros ok tid. split; [discriminate | intros (_ & _ & _ & _ & ?); congruence].
  - split_and!; try lia; try congruence.
    intros ok tid. split; [discriminate | intros (_ & _ & _ & _ & ?); lia].
Qed.

(** The storage after the scenario: event 1 is exhausted and alice holds
    one of its tickets, yet a claim of hers stamped before the start time
    reports NotStarted; and the same claim for event 7, which was never
    created, reverts. *)
Lemma C2_check_order_witness :
  let s := (run scenario initial).2 in
  hasTicket_at s 1 alice = true
  ∧ Event.remainingTickets (event_at s 1) = 0
  ∧ (exec (GrabTicket (mkEnv alice 50) 1) s).1 = Grabbed false NotStarted 0
  ∧ (exec (GrabTicket (mkEnv alice 50) 7) s).1 = Reverted NotFound.
Proof.
  cbv zeta. split_and!; [vm_compute; reflexivity | vm_compute; reflexivity | |].
  - refine (proj1 (proj2 (proj2 (proj2
      (C2_check_order (mkEnv alice 50) 1 (run scenario initial).2))) _) _).
    + vm_compute. reflexivity.
    + vm_compute. reflexivity.
  - refine (proj1 (C2_check_order (mkEnv alice 50) 7 (run scenario initial).2) _).
    vm_compute. reflexivity.
Defined.

(** C3. In every state reached by createEvent and grabTicket calls, no two
    tickets in the store share both event and owner; every later run keeps
    each stored ticket exactly as it was issued; a further claim by a
    ticket's owner for the same event never succeeds; and each stored
    ticket sits under its own id.  The tickets are the [Ticket] records of
    the contract, whose [owner] field is the claimant; nothing is said of
    the ERC721 token minted beside each record, which its holder can
    transfer. *)
Theorem C3_one_ticket_per_claimant (cs cs' : list Call) :
  let s := (run cs initial).2 in
  let s' := (run cs' s).2 in
  (∀ t1 t2 k1 k2,
     tickets s !! t1 = Some k1 → tickets s !! t2 = Some k2 →
     Ticket.eventId k1 = Ticket.eventId k2 → Ticket.owner k1 = Ticket.owner k2 →
     t1 = t2)
  ∧ (∀ t k, tickets s !! t = Some k → tickets s' !! t = Some k)
  ∧ (∀ t k now ok r tid,
       tickets s !! t = Some k →
       (exec (GrabTicket (mkEnv (Ticket.owner k) now) (Ticket.eventId k)) s).1
         = Grabbed ok r tid →
       ok = false ∧ r ≠ Success)
  ∧ (∀ t k, tickets s !! t = Some k → Ticket.id k = t).
Proof.
  intros s s'. destruct (run_invariants cs) as [HI _]. fold s in HI.
  split_and!.
  - intros t1 t2 k1 k2 H1 H2 He Ho.
    destruct (inv_ticket _ HI _ _ H1) as (_ & _ & _ & U1 & _).
    destruct (inv_ticket _ HI _ _ H2) as (_ & _ & _ & U2 & _).
    rewrite He, Ho in U1. congruence.
  - intros t k Hk. by apply ticket_kept_run.
  - intros t k now ok r tid Hk Hret.
    destruct (inv_ticket _ HI _ _ Hk) as (_ & _ & Hhas & _).
    destruct (exec_grab_spec (mkEnv (Ticket.owner k) now) (Ticket.eventId k) s);
      simpl in *; try (by inversion Hret); congruence.
  - intros t k Hk.
    by destruct (inv_ticket _ HI _ _ Hk) as (? & _).
Qed.

Lemma C3_one_ticket_per_claimant_witness :
  tickets (run [GrabTicket (mkEnv alice 200) 1] (run scenario initial).2).2 !! 1
    = Some (Ticket.mk 1 1 alice 150).
Proof.
  apply (proj1 (proj2
    (C3_one_ticket_per_claimant scenario [GrabTicket (mkEnv alice 200) 1]))).
  vm_compute. reflexivity.
Defined.

(** C4, as stated, fails for a call that names an unknown event: the
    transaction reverts and the caller's attempt log stays as it was, so no
    entry at all is appended.  Here carol claims for event 7 after the
    sample run, in which only event 1 was created. *)
Lemma C4_ledger_completeness_counterexample :
  let s := (run scenario initial).2 in
  let s' := (exec (GrabTicket (mkEnv carol 150) 7) s).2 in
  (exec (GrabTicket (mkEnv carol 150) 7) s).1 = Reverted NotFound
  ∧ userAttempts_at s' carol = userAttempts_at s carol
  ∧ ¬ ∃ a, userAttempts_at s' carol = userAttempts_at s carol ++ [a].
Proof.
  cbv zeta. split_and!; [vm_compute; reflexivity..|].
  intros [a Ha]. vm_compute in Ha. discriminate.
Qed.

(** C4, amended. Every grabTicket call that returns, with any of the four
    outcomes, pushes exactly one entry on the caller's attempt log,
    carrying the event id, the caller, the block timestamp and the very
    outcome that is returned; no other log is touched, and the success flag
    is set exactly for Success.  A call that reverts changes nothing.  In a
    reachable state a call for an existing event does return, provided the
    caller is not the zero address and the ticket counter has not reached
    its maximum; a call for an event that does not exist reverts. *)
Theorem C4_ledger_completeness (cs : list Call) (env : Env) (e : Z) :
  let s := (run cs initial).2 in
  let caller := msg_sender env in
  (∀ ok r tid s',
     exec (GrabTicket env e) s = (Grabbed ok r tid, s') →
     userAttempts_at s' caller =
       userAttempts_at s caller ++ [Attempt.mk e caller (block_timestamp env) r]
     ∧ (∀ a, a ≠ caller → userAttempts_at s' a = userAttempts_at s a)
     ∧ (ok = true ↔ r = Success))
  ∧ (∀ err s', exec (GrabTicket env e) s = (Reverted err, s') → s' = s)
  ∧ (Event.exists_ (event_at s e) = true →
     caller ≠ address0 → nextTicketId s < MAX_UINT256 →
     ∃ ok r tid, (exec (GrabTicket env e) s).1 = Grabbed ok r tid)
  ∧ (Event.exists_ (event_at s e) = false →
     (exec (GrabTicket env e) s).1 = Reverted NotFound).
Proof.
  intros s caller. destruct (run_invariants cs) as [HI _]. fold s in HI.
  unfold caller. split_and!.
  - intros ok r tid s' Hret.
    destruct (exec_grab_spec env e s); inversion Hret; subst;
      try (change (userAttempts_at (granted env e s))
             with (userAttempts_at (recorded env e Success s)));
      (split_and!;
       [ rewrite userAttempts_at_recorded; by rewrite decide_True
       | intros a Ha; rewrite userAttempts_at_recorded; by rewrite decide_False
       | done ]).
  - intros err s' Hret.
    by destruct (exec_grab_spec env e s); inversion Hret.
  - intros Hex Hsender Hmax.
    destruct (exec_grab_spec env e s); simpl; eauto; try congruence.
    destruct (inv_event _ HI _ Hex) as (_ & _ & _ & ?).
    pose proof (inv_owner _ HI (nextTicketId s)).
    exfalso. intuition lia.
  - intros Hex.
    destruct (exec_grab_spec env e s); simpl; congruence.
Qed.

Lemma C4_ledger_completeness_witness :
  ∃ ok r tid,
    (exec (GrabTicket (mkEnv carol 200) 1) (run scenario initial).2).1
      = Grabbed ok r tid.
Proof.
  apply (proj1 (proj2 (proj2
    (C4_ledger_completeness scenario (mkEnv carol 200) 1)))).
  - vm_compute. reflexivity.
  - vm_compute. discriminate.
  - vm_compute. reflexivity.
Defined.

(** C5. createEvent aborts with an invalid-argument revert exactly when the
    title is empty, or the ticket count is below 1, or the start time is not
    strictly after the block timestamp; whenever it aborts, the storage at
    the point of the abort is the storage it started from; when it returns,
    the id is the old [nextEventId], the counter has moved up by one, the
    event is stored under that id with [remainingTickets = totalTickets],
    and the id is appended to [allEventIds]; valid arguments do return while
    the counter is below its maximum; and along every run the ids returned
    are strictly increasing. *)
Theorem C5_createEvent (env : Env) (t : string) (st n : Z) (s : State) :
  let res := createEvent env t st n s in
  ((∃ err, res.1 = inl err ∧ InvalidArgument err) ↔
     t = "" ∨ n < 1 ∨ st ≤ block_timestamp env)
  ∧ (∀ err, res.1 = inl err → res.2 = s)
  ∧ (∀ id, res.1 = inr id →
       id = nextEventId s
       ∧ nextEventId res.2 = id + 1
       ∧ event_at res.2 id = Event.mk id t st n n (msg_sender env) true
       ∧ Event.remainingTickets (event_at res.2 id)
           = Event.totalTickets (event_at res.2 id)
       ∧ allEventIds res.2 = allEventIds s ++ [id]
       ∧ nextTicketId res.2 = nextTicketId s)
  ∧ (t ≠ "" → 1 ≤ n → block_timestamp env < st →
     nextEventId s < MAX_UINT256 → res.1 = inr (nextEventId s))
  ∧ (∀ cs, StronglySorted Z.lt (created_ids (run cs initial).1)).
Proof.
  intros res. unfold res. rewrite createEvent_eval.
  assert (Hsorted : ∀ cs, StronglySorted Z.lt (created_ids (run cs initial).1)).
  { intros cs. destruct (run_invariants cs) as [_ HH].
    apply (hinv_created_sorted _ _ HH). }
  destruct (0 <? Z.of_nat (String.length t)) eqn:Ht; simpl.
  2:{ assert (t = "") as ->.
      { destruct t; [done|]. apply Z.ltb_ge in Ht. simpl in Ht. lia. }
      split_and!; try done; try congruence.
      split; [auto|]. intros _. eexists. split; [done|]. by left. }
  apply title_nonempty in Ht.
  destruct (Z.ltb_spec 0 n); simpl.
  2:{ split_and!; try done; try lia.
      split; [intros _; lia|]. intros _. eexists. split; [done|]. right. by left. }
  destruct (Z.ltb_spec (block_timestamp env) st); simpl.
  2:{ split_and!; try done; try lia.
      split; [intros _; lia|]. intros _. eexists. split; [done|]. right. by right. }
  destruct (Z.ltb_spec (nextEventId s) MAX_UINT256); simpl.
  - split_and!; try done; try lia.
    + split; [by intros (? & ? & _) | intros [?|[?|?]]; [done|lia|lia]].
    + intros id [= <-]. rewrite !event_at_created, !decide_True by done.
      by split_and!.
  - split_and!; try done; try lia.
    split; [|intros [?|[?|?]]; [done|lia|lia]].
    intros (err & [= <-] & [?|[?|?]]); discriminate.
Qed.

Lemma C5_createEvent_witness :
  (createEvent (mkEnv organizer 0) "X" 100 2 initial).1 = inr 1.
Proof.
  refine (proj1 (proj2 (proj2 (proj2
    (C5_createEvent (mkEnv organizer 0) "X" 100 2 initial)))) _ _ _ _).
  - discriminate.
  - lia.
  - simpl. lia.
  - vm_compute. reflexivity.
Defined.

(** C6. For an event id that no createEvent call of the run has returned,
    grabTicket aborts with "Event does not exist"; the storage at the point
    of the abort, and so the storage after the transaction, is the one the
    call started from: no attempt is logged, no ticket issued, no capacity
    or counter changed. *)
Theorem C6_not_found (cs : list Call) (env : Env) (e : Z) :
  let h := (run cs initial).1 in
  let s := (run cs initial).2 in
  e ∉ created_ids h →
  grabTicket env e s = (inl NotFound, s)
  ∧ exec (GrabTicket env e) s = (Reverted NotFound, s)
  ∧ userAttempts_at (exec (GrabTicket env e) s).2 (msg_sender env)
      = userAttempts_at s (msg_sender env).
Proof.
  intros h s Hnot. destruct (run_invariants cs) as [_ HH]. fold h s in HH.
  assert (Hex : Event.exists_ (event_at s e) = false).
  { destruct (Event.exists_ (event_at s e)) eqn:Hex; [|done].
    by apply (hinv_created _ _ HH) in Hex. }
  assert (Hbody : grabTicket env e s = (inl NotFound, s)).
  { rewrite grabTicket_eval. by rewrite Hex. }
  split; [done|]. unfold exec, transact. by rewrite Hbody.
Qed.

Lemma C6_not_found_witness :
  exec (GrabTicket (mkEnv carol 150) 7) (run scenario initial).2
    = (Reverted NotFound, (run scenario initial).2).
Proof.
  refine (proj1 (proj2 (C6_not_found scenario (mkEnv carol 150) 7 _))).
  intros Hin%list_elem_of_In. vm_compute in Hin. intuition discriminate.
Defined.

(** C7. Along every run the ticket ids returned by successful claims, in
    the order the claims succeed, are strictly increasing and so pairwise
    distinct; the counter always stands one above the number of successes
    so far; and for any single transaction, a successful claim returns the
    current [nextTicketId] and moves it up by one, while every other
    transaction leaves [nextTicketId] as it was. *)
Theorem C7_ticket_ids_increase (cs : list Call) (c : Call) (s : State) :
  let h := (run cs initial).1 in
  StronglySorted Z.lt (issued h)
  ∧ NoDup (issued h)
  ∧ nextTicketId (run cs initial).2 = 1 + Z.of_nat (length (issued h))
  ∧ match (exec c s).1 with
    | Grabbed true _ tid =>
        tid = nextTicketId s ∧ nextTicketId (exec c s).2 = tid + 1
    | _ => nextTicketId (exec c s).2 = nextTicketId s
    end.
Proof.
  intros h. destruct (run_invariants cs) as [_ HH]. fold h in HH.
  pose proof (hinv_issued_sorted _ _ HH) as Hs.
  split_and!; [done| |apply (hinv_ticket_counter _ _ HH)|].
  - clear HH. induction Hs as [|x l _ IH Hx]; constructor; [|done].
    intros Hin. rewrite Forall_forall in Hx. specialize (Hx _ Hin). lia.
  - destruct c as [env t st n|env e].
    + by destruct (exec_create_spec env t st n s).
    + by destruct (exec_grab_spec env e s).
Qed.

Lemma C7_ticket_ids_increase_witness :
  issued (run scenario initial).1 = [1; 2]
  ∧ StronglySorted Z.lt (issued (run scenario initial).1).
Proof.
  split; [vm_compute; reflexivity|].
  exact (proj1 (C7_ticket_ids_increase scenario
                  (GrabTicket (mkEnv carol 150) 1) initial)).
Defined.

(** C8. A grabTicket call that returns NotStarted, AlreadyOwnsTicket or
    SoldOut leaves the events (and so every remainingTickets), the ticket
    store, both ownership mappings, the per-event and per-user ticket lists
    and both counters as they were; the resulting storage is the old one
    with a single entry pushed on the caller's attempt log. *)
Theorem C8_failure_frame (env : Env) (e : Z) (s s' : State)
    (ok : bool) (r : AttemptResult) (tid : Z) :
  exec (GrabTicket env e) s = (Grabbed ok r tid, s') →
  r ≠ Success →
  s' = recorded env e r s
  ∧ events s' = events s
  ∧ Event.remainingTickets (event_at s' e) = Event.remainingTickets (event_at s e)
  ∧ tickets s' = tickets s
  ∧ hasTicketForEvent s' = hasTicketForEvent s
  ∧ userTicketForEvent s' = userTicketForEvent s
  ∧ eventTickets s' = eventTickets s
  ∧ userEvents s' = userEvents s
  ∧ nextTicketId s' = nextTicketId s
  ∧ nextEventId s' = nextEventId s
  ∧ allEventIds s' = allEventIds s
  ∧ _owners s' = _owners s
  ∧ _balances s' = _balances s
  ∧ (∀ a, a ≠ msg_sender env → userAttempts_at s' a = userAttempts_at s a)
  ∧ userAttempts_at s' (msg_sender env) =
      userAttempts_at s (msg_sender env)
        ++ [Attempt.mk e (msg_sender env) (block_timestamp env) r].
Proof.
  intros Hret Hr.
  assert (Hs : s' = recorded env e r s).
  { destruct (exec_grab_spec env e s); inversion Hret; subst; done. }
  subst s'. split_and!; try done.
  - intros a Ha. rewrite userAttempts_at_recorded. by rewrite decide_False.
  - rewrite userAttempts_at_recorded. by rewrite decide_True.
Qed.

Lemma C8_failure_frame_witness :
  let s := (run [CreateEvent (mkEnv organizer 0) "X" 100 2] initial).2 in
  let s' := (exec (GrabTicket (mkEnv alice 50) 1) s).2 in
  Event.remainingTickets (event_at s' 1) = 2 ∧ nextTicketId s' = nextTicketId s.
Proof.
  cbv zeta.
  destruct (C8_failure_frame (mkEnv alice 50) 1
              (run [CreateEvent (mkEnv organizer 0) "X" 100 2] initial).2
              (exec (GrabTicket (mkEnv alice 50) 1)
                 (run [CreateEvent (mkEnv organizer 0) "X" 100 2] initial).2).2
              false NotStarted 0)
    as (_ & _ & Hrem & _ & _ & _ & _ & _ & Hnext & _).
  - vm_compute. reflexivity.
  - discriminate.
  - rewrite Hrem, Hnext. split; [vm_compute|]; reflexivity.
Defined.

(** C9. For every event id and every limit, getRecentTickets returns
    without failing; its ticket ids are the ids issued for the event, read
    from the most recently issued backwards and cut after [limit] of them,
    so their number is the smaller of the limit and the number issued; the
    two other arrays give, position by position, the stored owner and
    acquisition time of those tickets; and the ids issued for the event are
    exactly the ids of the stored tickets that carry its event id. *)
Theorem C9_recent_tickets (cs : list Call) (e limit : Z) :
  let h := (run cs initial).1 in
  let s := (run cs initial).2 in
  0 ≤ limit →
  ∃ res,
    getRecentTickets s e limit = inr res
    ∧ ticketIds res = take (Z.to_nat limit) (reverse (issued_for e h))
    ∧ Z.of_nat (length (ticketIds res))
        = Z.min limit (Z.of_nat (length (issued_for e h)))
    ∧ (Z.of_nat (length (issued_for e h)) ≤ limit →
       ticketIds res = reverse (issued_for e h))
    ∧ owners res = (λ t, Ticket.owner (ticket_at s t)) <$> ticketIds res
    ∧ acquiredTimes res = (λ t, Ticket.acquiredAt (ticket_at s t)) <$> ticketIds res
    ∧ StronglySorted Z.lt (issued_for e h)
    ∧ (∀ t, t ∈ issued_for e h ↔
         ∃ k, tickets s !! t = Some k ∧ Ticket.eventId k = e).
Proof.
  intros h s Hlimit. destruct (run_invariants cs) as [HI HH]. fold h s in HI, HH.
  rewrite getRecentTickets_eval. cbn zeta.
  rewrite (hinv_event_tickets _ _ HH).
  eexists. split; [reflexivity|]. simpl. split_and!; try done.
  - rewrite length_take, length_reverse. lia.
  - intros Hle. apply take_ge. rewrite length_reverse. lia.
  - apply issued_for_sorted, (hinv_issued_sorted _ _ HH).
  - intros t. symmetry. apply (hinv_store _ _ HH).
Qed.

Lemma C9_recent_tickets_witness :
  ∃ res,
    getRecentTickets (run scenario initial).2 1 5 = inr res
    ∧ ticketIds res = [2; 1] ∧ owners res = [bob; alice].
Proof.
  destruct (C9_recent_tickets scenario 1 5) as (res & Hres & _); [lia|].
  exists res. split; [exact Hres|].
  vm_compute in Hres. injection Hres as <-. split; reflexivity.
Defined.

(** C10. A grabTicket call that returns with its success flag cleared
    returns ticket id 0 and an outcome other than Success.  In every
    reachable state the counter is at least 1, every id handed out so far is
    at least 1, no ticket is stored under id 0, and a call that returns with
    the flag set returns an id of at least 1; so the returned id is 0
    exactly when no ticket was issued. *)
Theorem C10_zero_means_no_ticket (cs : list Call) (env : Env) (e : Z) :
  let h := (run cs initial).1 in
  let s := (run cs initial).2 in
  1 ≤ nextTicketId s
  ∧ Forall (λ t, 1 ≤ t) (issued h)
  ∧ tickets s !! 0 = None
  ∧ (∀ ok r tid,
       (exec (GrabTicket env e) s).1 = Grabbed ok r tid →
       (ok = false → tid = 0 ∧ r ≠ Success)
       ∧ (ok = true → 1 ≤ tid ∧ r = Success)
       ∧ (tid = 0 ↔ ok = false)).
Proof.
  intros h s. destruct (run_invariants cs) as [HI HH]. fold h s in HI, HH.
  pose proof (inv_next_ticket _ HI) as Hnext.
  split_and!; [done| | |].
  - eapply Forall_impl; [apply (hinv_issued_range _ _ HH)|]. simpl. intros. lia.
  - destruct (tickets s !! 0) as [k|] eqn:Hk; [|done].
    destruct (inv_ticket _ HI _ _ Hk). lia.
  - intros ok r tid Hret.
    destruct (exec_grab_spec env e s); inversion Hret; subst;
      (split_and!; [done || discriminate ..|]); split; try done; lia.
Qed.

Lemma C10_zero_means_no_ticket_witness :
  tickets (run scenario initial).2 !! 0 = None
  ∧ (exec (GrabTicket (mkEnv carol 200) 1) (run scenario initial).2).1
      = Grabbed false SoldOut 0.
Proof.
  split.
  - exact (proj1 (proj2 (proj2
      (C10_zero_means_no_ticket scenario (mkEnv carol 200) 1)))).
  - vm_compute. reflexivity.
Defined.

(** * The rest of the contract *)

(** ** The per-user history invariant *)

Lemma won_by_app a h1 h2 : won_by a (h1 ++ h2) = won_by a h1 ++ won_by a h2.
Proof.
  induction h1 as [|[c r] h1 IH]; simpl; [done|].
  destruct c, r as [|[] ? ?|]; simpl; try case_decide; simpl; by rewrite ?IH.
Qed.

Lemma attempts_by_app a h1 h2 :
  attempts_by a (h1 ++ h2) = attempts_by a h1 ++ attempts_by a h2.
Proof.
  induction h1 as [|[c r] h1 IH]; simpl; [done|].
  destruct c, r; simpl; try case_decide; simpl; by rewrite ?IH.
Qed.

Lemma returned_grabs_app h1 h2 :
  returned_grabs (h1 ++ h2) = (returned_grabs h1 + returned_grabs h2)%nat.
Proof.
  induction h1 as [|[c r] h1 IH]; simpl; [done|].
  destruct r; simpl; by rewrite ?IH.
Qed.

Lemma fold_length_push (m : gmap Z (list Attempt.t)) a x :
  map_fold (λ _ log n, (length log + n)%nat) 0%nat (<[a := rd [] m a ++ [x]]> m) =
    S (map_fold (λ _ log n, (length log + n)%nat) 0%nat m).
Proof.
  set (f := λ (_ : Z) (log : list Attempt.t) (n : nat), (length log + n)%nat).
  assert (Hcomm : ∀ (j1 j2 : Z) z1 z2 y, f j1 z1 (f j2 z2 y) = f j2 z2 (f j1 z1 y)).
  { intros. unfold f. lia. }
  rewrite <- insert_delete_eq.
  rewrite (map_fold_insert_L f);
    [|intros; apply Hcomm|apply lookup_delete_eq].
  destruct (m !! a) as [l|] eqn:Hl.
  - rewrite (rd_Some _ _ _ _ Hl).
    rewrite (map_fold_delete_L f 0%nat a l m); [|intros; apply Hcomm|done].
    unfold f. rewrite length_app. simpl. lia.
  - rewrite (rd_None _ _ _ Hl), delete_id by done.
    unfold f. simpl. lia.
Qed.

Lemma ledger_size_recorded env e r s :
  ledger_size (recorded env e r s) = S (ledger_size s).
Proof. unfold ledger_size, recorded. simpl. apply fold_length_push. Qed.

Lemma userEvents_at_granted env e s a :
  userEvents_at (granted env e s) a =
    if decide (msg_sender env = a) then userEvents_at s a ++ [e]
    else userEvents_at s a.
Proof.
  unfold userEvents_at at 1. simpl. rewrite rd_insert. case_decide; by subst.
Qed.

Lemma HInv2_initial : HInv2 [] initial.
Proof.
  split; simpl; try done.
  by intros a e t ?%elem_of_nil.
Qed.

(** A transaction that reverts. *)
Lemma HInv2_reverted h s c err :
  HInv2 h s → HInv2 (h ++ [(c, Reverted err)]) s.
Proof.
  intros [].
  split; rewrite ?created_ids_app, ?issued_app, ?returned_grabs_app;
    try setoid_rewrite won_by_app; try setoid_rewrite attempts_by_app;
    destruct c; simpl; rewrite ?app_nil_r, ?Nat.add_0_r; try done;
    try setoid_rewrite app_nil_r; done.
Qed.

(** A claim that returns one of the three failure outcomes. *)
Lemma HInv2_recorded h s env e r :
  HInv2 h s →
  HInv2 (h ++ [(GrabTicket env e, Grabbed false r 0)]) (recorded env e r s).
Proof.
  intros [].
  split; rewrite ?created_ids_app, ?issued_app, ?returned_grabs_app;
    try setoid_rewrite won_by_app; simpl; rewrite ?app_nil_r;
    try setoid_rewrite app_nil_r; try done.
  - intros a. rewrite userAttempts_at_recorded, attempts_by_app. simpl.
    rewrite h2_attempts0. case_decide; [by subst|by rewrite app_nil_r].
  - rewrite ledger_size_recorded. lia.
Qed.

Lemma HInv2_created h s env t st n :
  HInv h s → HInv2 h s →
  HInv2 (h ++ [(CreateEvent env t st n, Created (nextEventId s))])
    (created env t st n s).
Proof.
  intros HH [].
  split; rewrite ?created_ids_app, ?issued_app, ?returned_grabs_app;
    try setoid_rewrite won_by_app; try setoid_rewrite attempts_by_app;
    simpl; rewrite ?app_nil_r, ?Nat.add_0_r;
    try setoid_rewrite app_nil_r; try done.
  - by rewrite h2_all_ids0.
  - rewrite length_app. simpl.
    replace (length (created_ids h) + 1)%nat with (S (length (created_ids h))) by lia.
    rewrite seqZ_S, <- h2_created_seq0.
    by rewrite (hinv_event_counter _ _ HH).
Qed.

Lemma HInv2_granted h s env e :
  Inv s → HInv h s → HInv2 h s →
  hasTicket_at s e (msg_sender env) = false →
  HInv2 (h ++ [(GrabTicket env e, Grabbed true Success (nextTicketId s))])
    (granted env e s).
Proof.
  intros HI HH [] Hhas.
  assert (Hold : ∀ t k, tickets s !! t = Some k → nextTicketId s ≠ t).
  { intros t k Hk. destruct (inv_ticket _ HI _ _ Hk) as (_ & ? & _). lia. }
  split.
  - by rewrite created_ids_app, app_nil_r.
  - by rewrite created_ids_app, app_nil_r.
  - rewrite issued_app, length_app. simpl.
    replace (length (issued h) + 1)%nat with (S (length (issued h))) by lia.
    rewrite seqZ_S, <- h2_issued_seq0.
    by rewrite (hinv_ticket_counter _ _ HH).
  - intros a. rewrite userEvents_at_granted, won_by_app, fmap_app. simpl.
    rewrite h2_user_events0. case_decide; [done|by rewrite app_nil_r].
  - intros a e' t. rewrite won_by_app, elem_of_app. cbn [won_by].
    rewrite hasTicket_at_granted, userTicket_at_granted, tickets_granted.
    intros [Hin|Hin].
    + destruct (h2_won0 _ _ _ Hin) as (Hh & Hu & k & Hk & He & Ho).
      case_decide as Hp.
      { injection Hp as He' Ha'. rewrite <- He', <- Ha' in Hh. congruence. }
      split_and!; [done|done|].
      exists k. rewrite decide_False by eauto. done.
    + case_decide as Ha; [|by apply elem_of_nil in Hin].
      apply list_elem_of_singleton in Hin. injection Hin as -> ->. subst a.
      rewrite !decide_True by done. split_and!; [done|done|].
      by eexists.
  - intros a e'. rewrite hasTicket_at_granted. setoid_rewrite won_by_app. cbn [won_by].
    case_decide as Hp.
    + injection Hp as <- <-. intros _. exists (nextTicketId s).
      apply elem_of_app. right. rewrite decide_True by done.
      by apply list_elem_of_singleton.
    + intros [t Ht]%h2_has0. exists t. apply elem_of_app. by left.
  - intros a e'. rewrite hasTicket_at_granted, userTicket_at_granted.
    case_decide; [done|]. apply h2_no_ticket0.
  - intros t k. rewrite tickets_granted, won_by_app, elem_of_app.
    case_decide as Ht.
    + intros [= <-]. cbn [won_by Ticket.owner Ticket.eventId]. right.
      rewrite decide_True by done.
      subst t. by apply list_elem_of_singleton.
    + intros Hk. left. by apply h2_ticket_won0.
  - intros a.
    change (userAttempts_at (granted env e s) a)
      with (userAttempts_at (recorded env e Success s) a).
    rewrite userAttempts_at_recorded, attempts_by_app. simpl.
    rewrite h2_attempts0. case_decide; [by subst|by rewrite app_nil_r].
  - unfold granted. rewrite ledger_size_recorded, returned_grabs_app. simpl.
    change (ledger_size (minted _ _ (allotted env e s))) with (ledger_size s).
    rewrite h2_ledger_size0. lia.
Qed.

Lemma HInv2_exec h s c :
  Inv s → HInv h s → HInv2 h s → HInv2 (h ++ [(c, (exec c s).1)]) (exec c s).2.
Proof.
  intros HI HH H2. destruct c as [env t st n|env e].
  - destruct (exec_create_spec env t st n s); simpl;
      auto using HInv2_reverted, HInv2_created.
  - destruct (exec_grab_spec env e s); simpl;
      auto using HInv2_reverted, HInv2_recorded, HInv2_granted.
Qed.

(** All three invariants hold along every run. *)
Lemma run_invariants2 cs :
  Inv (run cs initial).2
  ∧ HInv (run cs initial).1 (run cs initial).2
  ∧ HInv2 (run cs initial).1 (run cs initial).2.
Proof.
  apply (run_ind (λ h s, Inv s ∧ HInv h s ∧ HInv2 h s)).
  - split_and!; [apply Inv_initial | apply HInv_initial | apply HInv2_initial].
  - intros h s c (HI & HH & H2).
    split_and!; [by apply Inv_exec | by apply HInv_exec | by apply HInv2_exec].
Qed.

(** ** The loops of [getAllEvents] and [getUserTickets] *)

Lemma index_at_lookup {A} (a : list A) (k : nat) (v : A) :
  a !! k = Some v → index_at a (Z.of_nat k) = inr v.
Proof.
  intros Hv. pose proof (lookup_lt_Some _ _ _ Hv) as Hk.
  unfold index_at.
  rewrite (proj2 (Z.leb_le _ _)) by lia.
  rewrite (proj2 (Z.ltb_lt _ _)) by lia. simpl.
  by rewrite Nat2Z.id, Hv.
Qed.

Lemma store_at_in_range {A} (a : list A) (k : nat) (v : A) :
  (k < length a)%nat → store_at a (Z.of_nat k) v = inr (<[k := v]> a).
Proof.
  intros Hk. unfold store_at.
  rewrite (proj2 (Z.leb_le _ _)) by lia.
  rewrite (proj2 (Z.ltb_lt _ _)) by lia. simpl.
  by rewrite Nat2Z.id.
Qed.

Lemma take_snoc_insert_at {A} (a : list A) (k : nat) (v : A) :
  (k < length a)%nat → take (S k) (<[k := v]> a) = take k a ++ [v].
Proof.
  intros Hk.
  rewrite (take_S_r _ _ v) by (by apply list_lookup_insert_eq).
  by rewrite take_insert_ge.
Qed.

Lemma allEvents_loop_spec s (todo k : nat) a1 a2 a3 a4 a5 a6 :
  length a1 = (k + todo)%nat → length a2 = (k + todo)%nat →
  length a3 = (k + todo)%nat → length a4 = (k + todo)%nat →
  length a5 = (k + todo)%nat → length a6 = (k + todo)%nat →
  (k + todo ≤ length (allEventIds s))%nat →
  allEvents_loop s todo (Z.of_nat k) (AllEvents.mk a1 a2 a3 a4 a5 a6) =
    let new := event_at s <$> take todo (drop k (allEventIds s)) in
    inr (AllEvents.mk
           (take k a1 ++ (Event.id <$> new))
           (take k a2 ++ (Event.title <$> new))
           (take k a3 ++ (Event.startTime <$> new))
           (take k a4 ++ (Event.totalTickets <$> new))
           (take k a5 ++ (Event.remainingTickets <$> new))
           (take k a6 ++ (Event.organizer <$> new))).
Proof.
  revert k a1 a2 a3 a4 a5 a6.
  induction todo as [|todo IH]; intros k a1 a2 a3 a4 a5 a6 H1 H2 H3 H4 H5 H6 Hlen.
  - simpl. rewrite !app_nil_r, !take_ge by lia. done.
  - destruct (allEventIds s !! k) as [v|] eqn:Hv.
    2:{ apply lookup_ge_None in Hv. lia. }
    cbn [allEvents_loop AllEvents.ids AllEvents.titles AllEvents.startTimes
         AllEvents.totalTicketCounts AllEvents.remainingTicketCounts
         AllEvents.organizers].
    rewrite (index_at_lookup _ _ _ Hv), !store_at_in_range by lia.
    replace (Z.of_nat k + 1) with (Z.of_nat (S k)) by lia.
    rewrite IH by (rewrite ?length_insert; lia).
    cbn zeta. rewrite !take_snoc_insert_at by lia.
    rewrite (drop_S _ _ _ Hv). simpl.
    by rewrite <- !(assoc_L (++)).
Qed.

Lemma getAllEvents_eval s :
  getAllEvents s =
    let evts := event_at s <$> allEventIds s in
    inr (AllEvents.mk (Event.id <$> evts) (Event.title <$> evts)
           (Event.startTime <$> evts) (Event.totalTickets <$> evts)
           (Event.remainingTickets <$> evts) (Event.organizer <$> evts)).
Proof.
  unfold getAllEvents. cbn zeta.
  rewrite (allEvents_loop_spec s _ 0) by (rewrite ?length_replicate; lia).
  cbn zeta. rewrite !take_0, drop_0, take_ge by lia. done.
Qed.

Lemma userTickets_loop_spec s user l (todo k : nat) a1 a2 a3 a4 :
  length a1 = (k + todo)%nat → length a2 = (k + todo)%nat →
  length a3 = (k + todo)%nat → length a4 = (k + todo)%nat →
  (k + todo ≤ length l)%nat →
  userTickets_loop s user l todo (Z.of_nat k) (UserTickets.mk a1 a2 a3 a4) =
    let new := take todo (drop k l) in
    inr (UserTickets.mk
           (take k a1 ++ ((λ e, userTicket_at s e user) <$> new))
           (take k a2 ++ new)
           (take k a3 ++ ((λ e, Event.title (event_at s e)) <$> new))
           (take k a4 ++
              ((λ e, Ticket.acquiredAt (ticket_at s (userTicket_at s e user)))
                 <$> new))).
Proof.
  revert k a1 a2 a3 a4.
  induction todo as [|todo IH]; intros k a1 a2 a3 a4 H1 H2 H3 H4 Hlen.
  - simpl. rewrite !app_nil_r, !take_ge by lia. done.
  - destruct (l !! k) as [v|] eqn:Hv.
    2:{ apply lookup_ge_None in Hv. lia. }
    cbn [userTickets_loop UserTickets.ticketIds UserTickets.eventIds
         UserTickets.eventTitles UserTickets.acquiredTimes].
    rewrite (index_at_lookup _ _ _ Hv), !store_at_in_range by lia.
    replace (Z.of_nat k + 1) with (Z.of_nat (S k)) by lia.
    rewrite IH by (rewrite ?length_insert; lia).
    cbn zeta. rewrite !take_snoc_insert_at by lia.
    rewrite (drop_S _ _ _ Hv). simpl.
    by rewrite <- !(assoc_L (++)).
Qed.

Lemma getUserTickets_eval s user :
  getUserTickets s user =
    let l := userEvents_at s user in
    inr (UserTickets.mk
           ((λ e, userTicket_at s e user) <$> l)
           l
           ((λ e, Event.title (event_at s e)) <$> l)
           ((λ e, Ticket.acquiredAt (ticket_at s (userTicket_at s e user))) <$> l)).
Proof.
  unfold getUserTickets. cbn zeta.
  rewrite (userTickets_loop_spec s user _ _ 0) by (rewrite ?length_replicate; lia).
  cbn zeta. rewrite !take_0, drop_0, take_ge by lia. done.
Qed.

Lemma getEventStatus_eval now e s :
  getEventStatus now e s =
    if negb (Event.exists_ (event_at s e)) then (inl NotFound, s)
    else if now <? Event.startTime (event_at s e) then (inr StatusNotStarted, s)
    else if Event.remainingTickets (event_at s e) =? 0 then (inr StatusSoldOut, s)
    else (inr StatusInProgress, s).
Proof.
  unfold getEventStatus, bind, require, gets, ret, revert.
  destruct (Event.exists_ (event_at s e)); simpl; [|reflexivity].
  destruct (now <? Event.startTime (event_at s e)); [reflexivity|].
  destruct (Event.remainingTickets (event_at s e) =? 0); reflexivity.
Qed.

Lemma getEvent_eval now e s :
  getEvent now e s =
    match getEventStatus now e s with
    | (inl err, _) => (inl err, s)
    | (inr st, _) =>
      let evt := event_at s e in
      (inr (EventView.mk (Event.id evt) (Event.title evt) (Event.startTime evt)
              (Event.totalTickets evt) (Event.remainingTickets evt)
              (Event.organizer evt) st), s)
    end.
Proof.
  rewrite getEventStatus_eval.
  unfold getEvent, bind, require, gets, ret, revert.
  destruct (Event.exists_ (event_at s e)) eqn:Hex; simpl; [|reflexivity].
  rewrite getEventStatus_eval, Hex. simpl.
  destruct (now <? Event.startTime (event_at s e)); [reflexivity|].
  destruct (Event.remainingTickets (event_at s e) =? 0); reflexivity.
Qed.

(** ** Event fields across later calls *)

Lemma event_fixed_exec c s e :
  Inv s → Event.exists_ (event_at s e) = true →
  let ev := event_at s e in
  let ev' := event_at (exec c s).2 e in
  Event.id ev' = Event.id ev ∧ Event.title ev' = Event.title ev
  ∧ Event.startTime ev' = Event.startTime ev
  ∧ Event.totalTickets ev' = Event.totalTickets ev
  ∧ Event.organizer ev' = Event.organizer ev
  ∧ Event.exists_ ev' = true
  ∧ Event.remainingTickets ev' ≤ Event.remainingTickets ev.
Proof.
  intros HI Hex. cbn zeta. destruct c as [env t st n|env e'].
  - destruct (exec_create_spec env t st n s); simpl; try (split_and!; done || lia).
    rewrite event_at_created. case_decide; [|split_and!; done || lia].
    destruct (inv_event _ HI _ Hex) as (_ & ? & _). lia.
  - destruct (exec_grab_spec env e' s); simpl; try (split_and!; done || lia).
    rewrite event_at_granted. case_decide; [|split_and!; done || lia].
    subst e'. simpl. split_and!; done || lia.
Qed.

Lemma event_fixed_run cs s e :
  Inv s → Event.exists_ (event_at s e) = true →
  let ev := event_at s e in
  let ev' := event_at (run cs s).2 e in
  Event.id ev' = Event.id ev ∧ Event.title ev' = Event.title ev
  ∧ Event.startTime ev' = Event.startTime ev
  ∧ Event.totalTickets ev' = Event.totalTickets ev
  ∧ Event.organizer ev' = Event.organizer ev
  ∧ Event.exists_ ev' = true
  ∧ Event.remainingTickets ev' ≤ Event.remainingTickets ev.
Proof.
  revert s. induction cs as [|c cs IH]; intros s HI Hex; cbn zeta.
  { simpl. split_and!; done || lia. }
  simpl. destruct (exec c s) as [r s1] eqn:Hc.
  pose proof (event_fixed_exec c s e HI Hex) as Hstep.
  pose proof (Inv_exec c s HI) as HI1.
  rewrite Hc in Hstep, HI1. cbn zeta in Hstep. simpl in Hstep, HI1.
  destruct Hstep as (E1 & E2 & E3 & E4 & E5 & E6 & E7).
  specialize (IH s1 HI1 E6). cbn zeta in IH.
  destruct (run cs s1) as [h s2]. simpl in *.
  destruct IH as (F1 & F2 & F3 & F4 & F5 & F6 & F7).
  split_and!; try congruence; lia.
Qed.

(** * Further properties *)

(** X1. [getEventStatus], read at the block timestamp of a claim, predicts
    what [grabTicket] does in the same storage: it reverts for an unknown
    event exactly as the claim does; it reports NotStarted exactly when the
    claim returns NotStarted; when it reports SoldOut the claim cannot
    succeed (it returns SoldOut, or AlreadyOwnsTicket for a holder); when it
    reports InProgress a holder gets AlreadyOwnsTicket and any other caller
    (non-zero address, counter below its maximum) gets the next ticket. *)
Theorem status_predicts_grab (cs : list Call) (env : Env) (e : Z) :
  let s := (run cs initial).2 in
  let status := (getEventStatus (block_timestamp env) e s).1 in
  let outcome := (exec (GrabTicket env e) s).1 in
  let has := hasTicket_at s e (msg_sender env) in
  (status = inl NotFound ↔ Event.exists_ (event_at s e) = false)
  ∧ (status = inl NotFound → outcome = Reverted NotFound)
  ∧ (status = inr StatusNotStarted ↔ outcome = Grabbed false NotStarted 0)
  ∧ (status = inr StatusSoldOut →
     (has = false → outcome = Grabbed false SoldOut 0)
     ∧ (has = true → outcome = Grabbed false AlreadyOwnsTicket 0))
  ∧ (status = inr StatusInProgress →
     (has = true → outcome = Grabbed false AlreadyOwnsTicket 0)
     ∧ (has = false → msg_sender env ≠ address0 →
        nextTicketId s < MAX_UINT256 →
        outcome = Grabbed true Success (nextTicketId s))).
Proof.
  intros s status outcome has. unfold status, outcome, has.
  destruct (run_invariants cs) as [HI _]. fold s in HI.
  rewrite getEventStatus_eval.
  destruct (exec_grab_spec env e s) as [Hex|Hex Ht|Hex Ht Hh|Hex Ht Hh Hr
    |err Hex Ht Hh Hr Hf|Hex Ht Hh Hr Hm Hs Ho]; rewrite Hex; simpl.
  - split_and!; done.
  - rewrite (proj2 (Z.ltb_lt _ _) Ht). split_and!; done.
  - rewrite (proj2 (Z.ltb_ge _ _) Ht).
    destruct (Event.remainingTickets (event_at s e) =? 0);
      (split_and!; try done; intros _; split; congruence).
  - rewrite (proj2 (Z.ltb_ge _ _) Ht), Hr. simpl.
    split_and!; try done. intros _. split; [done|congruence].
  - rewrite (proj2 (Z.ltb_ge _ _) Ht), (proj2 (Z.eqb_neq _ _) Hr).
    split_and!; try done. intros _. split; [congruence|].
    intros _ Hsender Hmax.
    destruct (inv_event _ HI _ Hex) as (_ & _ & _ & ?).
    pose proof (inv_owner _ HI (nextTicketId s)).
    exfalso. intuition lia.
  - rewrite (proj2 (Z.ltb_ge _ _) Ht).
    rewrite (proj2 (Z.eqb_neq _ _)) by lia.
    split_and!; try done. intros _. split; [congruence|done].
Qed.

(** X2. Capacity only goes down and a start time never moves, so status
    never goes backwards: once [getEventStatus] reports SoldOut it reports
    SoldOut after any further calls and at any later time, and an event
    that has started is never reported NotStarted again. *)
Theorem status_never_goes_back (cs cs' : list Call) (e now now' : Z) :
  let s := (run cs initial).2 in
  let s' := (run cs' s).2 in
  now ≤ now' →
  ((getEventStatus now e s).1 = inr StatusSoldOut →
   (getEventStatus now' e s').1 = inr StatusSoldOut)
  ∧ ((getEventStatus now e s).1 = inr StatusInProgress →
     (getEventStatus now' e s').1 = inr StatusInProgress
     ∨ (getEventStatus now' e s').1 = inr StatusSoldOut)
  ∧ (Event.exists_ (event_at s e) = true →
     Event.remainingTickets (event_at s' e) ≤ Event.remainingTickets (event_at s e)
     ∧ Event.startTime (event_at s' e) = Event.startTime (event_at s e)).
Proof.
  intros s s' Hnow. destruct (run_invariants cs) as [HI _]. fold s in HI.
  rewrite !getEventStatus_eval.
  destruct (Event.exists_ (event_at s e)) eqn:Hex; simpl;
    [|split_and!; discriminate].
  destruct (event_fixed_run cs' s e HI Hex) as (_ & _ & Hst & _ & _ & Hex' & Hrem).
  fold s' in Hst, Hex', Hrem. rewrite Hex', Hst. simpl.
  destruct (event_kept_run cs' s e HI Hex) as (HI' & _ & _). fold s' in HI'.
  destruct (inv_event _ HI' _ Hex') as (_ & _ & _ & Hpos & _).
  split_and!; [| |done].
  - destruct (Z.ltb_spec now (Event.startTime (event_at s e))); [discriminate|].
    destruct (Z.eqb_spec (Event.remainingTickets (event_at s e)) 0);
      [|discriminate].
    intros _. rewrite (proj2 (Z.ltb_ge _ _)) by lia.
    rewrite (proj2 (Z.eqb_eq _ _)) by lia. done.
  - destruct (Z.ltb_spec now (Event.startTime (event_at s e))); [discriminate|].
    intros _. rewrite (proj2 (Z.ltb_ge _ _)) by lia.
    destruct (Event.remainingTickets (event_at s' e) =? 0); auto.
Qed.

Lemma status_never_goes_back_witness :
  (getEventStatus 500 1
     (run [GrabTicket (mkEnv carol 300) 1] (run scenario initial).2).2).1
    = inr StatusSoldOut.
Proof.
  refine (proj1 (status_never_goes_back scenario
                   [GrabTicket (mkEnv carol 300) 1] 1 150 500 _) _).
  - lia.
  - vm_compute. reflexivity.
Defined.

(** X3. Whatever happens after an event is created, [getEvent] keeps
    returning the id that [createEvent] returned together with the title,
    start time and ticket total it was given and the creator as organizer;
    the remaining count it returns lies between 0 and that total, and its
    status is the one [getEventStatus] computes. *)
Theorem getEvent_returns_creation_arguments
    (cs cs' : list Call) (env : Env) (t : string) (st n id now : Z) :
  let s := (run cs initial).2 in
  let s' := (run cs' (exec (CreateEvent env t st n) s).2).2 in
  (exec (CreateEvent env t st n) s).1 = Created id →
  ∃ v,
    (getEvent now id s').1 = inr v
    ∧ EventView.id v = id
    ∧ EventView.title v = t
    ∧ EventView.startTime v = st
    ∧ EventView.totalTickets v = n
    ∧ EventView.organizer v = msg_sender env
    ∧ 0 ≤ EventView.remainingTickets v ≤ n
    ∧ (getEventStatus now id s').1 = inr (EventView.status v).
Proof.
  intros s s' Hret. destruct (run_invariants cs) as [HI _]. fold s in HI.
  pose proof (Inv_exec (CreateEvent env t st n) s HI) as HI1.
  unfold s'. clear s'.
  destruct (exec_create_spec env t st n s) as [| |Ht Hn Hst Hmax];
    simpl in Hret, HI1 |- *; try discriminate.
  injection Hret as <-.
  set (s1 := created env t st n s) in *.
  assert (Hev : event_at s1 (nextEventId s)
                = Event.mk (nextEventId s) t st n n (msg_sender env) true).
  { unfold s1. rewrite event_at_created. by rewrite decide_True. }
  assert (Hex : Event.exists_ (event_at s1 (nextEventId s)) = true)
    by (by rewrite Hev).
  destruct (event_fixed_run cs' s1 _ HI1 Hex) as (E1 & E2 & E3 & E4 & E5 & E6 & E7).
  destruct (event_kept_run cs' s1 _ HI1 Hex) as (HI' & _ & _).
  destruct (inv_event _ HI' _ E6) as (_ & _ & _ & Hpos & _).
  rewrite Hev in E1, E2, E3, E4, E5, E7. simpl in E1, E2, E3, E4, E5, E7.
  rewrite getEvent_eval, getEventStatus_eval, E6. simpl.
  destruct (_ <? _); [|destruct (_ =? _)]; simpl;
    (eexists; split; [reflexivity|]; simpl; split_and!; try done; lia).
Qed.

Lemma getEvent_returns_creation_arguments_witness :
  ∃ v,
    (getEvent 500 1 (run (tail scenario)
       (exec (CreateEvent (mkEnv organizer 0) "X" 100 2) initial).2).2).1 = inr v
    ∧ EventView.title v = "X" ∧ EventView.totalTickets v = 2.
Proof.
  destruct (getEvent_returns_creation_arguments [] (tail scenario)
              (mkEnv organizer 0) "X" 100 2 1 500)
    as (v & Hv & _ & Ht & _ & Hn & _).
  - vm_compute. reflexivity.
  - exists v. split_and!; [exact Hv|exact Ht|exact Hn].
Defined.

(** X4. [getEvent] and [getEventStatus] revert with "Event does not exist"
    exactly for the ids that no [createEvent] call of the run has returned,
    and return for every other id, at any timestamp. *)
Theorem event_views_revert_iff_never_created (cs : list Call) (e now : Z) :
  let h := (run cs initial).1 in
  let s := (run cs initial).2 in
  ((getEvent now e s).1 = inl NotFound ↔ e ∉ created_ids h)
  ∧ ((getEventStatus now e s).1 = inl NotFound ↔ e ∉ created_ids h)
  ∧ (e ∈ created_ids h →
     ∃ v, (getEvent now e s).1 = inr v
          ∧ (getEventStatus now e s).1 = inr (EventView.status v)).
Proof.
  intros h s. destruct (run_invariants cs) as [_ HH]. fold h s in HH.
  rewrite <- (hinv_created _ _ HH).
  rewrite getEvent_eval, getEventStatus_eval.
  destruct (Event.exists_ (event_at s e)); simpl.
  - destruct (_ <? _); [|destruct (_ =? _)]; simpl;
      (split_and!; [split; [discriminate|intros Hn; by destruct Hn]..|]; eauto).
  - split_and!; [split; [discriminate|done]..|discriminate].
Qed.

(** ** The third invariant *)

Lemma Inv3_initial : Inv3 initial.
Proof.
  split; simpl; try done. intros t Ht. lia.
Qed.

Lemma Inv3_recorded env e r s :
  r ≠ Success → Inv3 s → Inv3 (recorded env e r s).
Proof.
  intros Hr []. split; try done.
  intros a e'. rewrite userAttempts_at_recorded.
  change (hasTicket_at (recorded env e r s) e' a) with (hasTicket_at s e' a).
  case_decide; [|done]. subst a.
  rewrite log_successes_app, log_successes_one, inv3_one_success0.
  rewrite decide_False by (by intros [_ ?]). lia.
Qed.

Lemma Inv3_granted env e s :
  hasTicket_at s e (msg_sender env) = false → msg_sender env ≠ address0 →
  Inv3 s → Inv3 (granted env e s).
Proof.
  intros Hhas Hsender []. split.
  - intros t Ht. rewrite tickets_granted.
    change (nextTicketId (granted env e s)) with (nextTicketId s + 1) in Ht.
    case_decide; [by eexists|]. apply inv3_dense0. lia.
  - intros t k. rewrite tickets_granted. case_decide.
    + by intros [= <-].
    + apply inv3_owner_nonzero0.
  - intros a e'.
    change (userAttempts_at (granted env e s) a)
      with (userAttempts_at (recorded env e Success s) a).
    rewrite userAttempts_at_recorded, hasTicket_at_granted.
    destruct (decide (msg_sender env = a)) as [<-|Ha].
    + rewrite log_successes_app, log_successes_one, inv3_one_success0.
      destruct (decide (e = e')) as [<-|He].
      * rewrite Hhas, !decide_True by done. done.
      * rewrite decide_False by (by intros [? _]).
        rewrite decide_False by (by intros [= ?]).
        destruct (hasTicket_at s e' (msg_sender env)); lia.
    + rewrite decide_False by (intros [= ? ?]; done).
      apply inv3_one_success0.
Qed.

Lemma Inv3_exec c s : Inv3 s → Inv3 (exec c s).2.
Proof.
  intros H3. destruct c as [env t st n|env e].
  - destruct (exec_create_spec env t st n s); simpl; try done.
    by destruct H3.
  - destruct (exec_grab_spec env e s); simpl;
      auto using Inv3_recorded, Inv3_granted.
Qed.

Lemma run_Inv3 cs : Inv3 (run cs initial).2.
Proof.
  apply (run_ind (λ _ s, Inv3 s)); [apply Inv3_initial|].
  intros. by apply Inv3_exec.
Qed.

(** ** Facts about the history functions *)

Lemma won_by_issued a h t : t ∈ (won_by a h).*2 → t ∈ issued h.
Proof.
  induction h as [|[c r] h IH]; simpl; [done|].
  destruct c, r as [|[] ? ?|]; simpl; try case_decide; simpl;
    rewrite ?elem_of_cons; tauto.
Qed.

Lemma won_by_sorted a h :
  StronglySorted Z.lt (issued h) → StronglySorted Z.lt (won_by a h).*2.
Proof.
  induction h as [|[c r] h IH]; simpl; [done|].
  destruct c, r as [|[] ? ?|]; simpl; try case_decide; simpl;
    rewrite ?StronglySorted_cons; try done; intros [Hall Hs]; auto.
  split; [|auto]. rewrite Forall_forall in Hall |- *.
  intros x Hx. by apply Hall, (won_by_issued a).
Qed.

Lemma attempts_by_participant a h :
  Forall (λ x, Attempt.participant x = a) (attempts_by a h).
Proof.
  induction h as [|[c r] h IH]; simpl; [done|].
  destruct c, r; simpl; try case_decide; try done. by constructor.
Qed.

Lemma fmap_fst_snd {A B} (f : A → B) (l : list (A * B)) :
  (∀ x y, (x, y) ∈ l → f x = y) → f <$> l.*1 = l.*2.
Proof.
  induction l as [|[x y] l IH]; intros Hf; csimpl; [done|].
  rewrite (Hf x y) by left. f_equal. apply IH. intros. apply Hf. by right.
Qed.

Lemma allEventIds_run cs :
  let h := (run cs initial).1 in
  let s := (run cs initial).2 in
  allEventIds s = created_ids h
  ∧ allEventIds s = seqZ 1 (nextEventId s - 1)
  ∧ (∀ e, e ∈ allEventIds s ↔ Event.exists_ (event_at s e) = true).
Proof.
  intros h s. destruct (run_invariants2 cs) as (HI & HH & H2). fold h s in HI, HH, H2.
  split_and!; [apply (h2_all_ids _ _ H2)| |].
  - rewrite (h2_all_ids _ _ H2), (hinv_event_counter _ _ HH).
    rewrite (h2_created_seq _ _ H2) at 1. f_equal. lia.
  - intros e. rewrite (h2_all_ids _ _ H2). symmetry. apply (hinv_created _ _ HH).
Qed.

(** X5. [getAllEventIds] returns the ids handed out by [createEvent] in
    the order of creation, which are 1, 2, ... up to [nextEventId - 1],
    each once; an id is listed exactly when its event exists. *)
Theorem getAllEventIds_lists_created (cs : list Call) :
  let h := (run cs initial).1 in
  let s := (run cs initial).2 in
  getAllEventIds s = created_ids h
  ∧ getAllEventIds s = seqZ 1 (nextEventId s - 1)
  ∧ NoDup (getAllEventIds s)
  ∧ (∀ e, e ∈ getAllEventIds s ↔ Event.exists_ (event_at s e) = true).
Proof.
  intros h s. destruct (allEventIds_run cs) as (Hc & Hseq & Hin).
  fold h s in Hc, Hseq, Hin. unfold getAllEventIds.
  split_and!; try done. rewrite Hseq. apply NoDup_seqZ.
Qed.

(** X6. [getAllEvents] never fails and returns six arrays of one length,
    the number of events created; row [i] describes event [i + 1]: its id,
    and the title, start time, total, remaining count and organizer stored
    for it, with the remaining count between 0 and the total. *)
Theorem getAllEvents_rows (cs : list Call) :
  let s := (run cs initial).2 in
  ∃ r,
    getAllEvents s = inr r
    ∧ AllEvents.ids r = getAllEventIds s
    ∧ length (AllEvents.ids r) = Z.to_nat (nextEventId s - 1)
    ∧ length (AllEvents.titles r) = length (AllEvents.ids r)
    ∧ length (AllEvents.startTimes r) = length (AllEvents.ids r)
    ∧ length (AllEvents.totalTicketCounts r) = length (AllEvents.ids r)
    ∧ length (AllEvents.remainingTicketCounts r) = length (AllEvents.ids r)
    ∧ length (AllEvents.organizers r) = length (AllEvents.ids r)
    ∧ (∀ (i : nat) e, AllEvents.ids r !! i = Some e →
         e = 1 + Z.of_nat i
         ∧ AllEvents.titles r !! i = Some (Event.title (event_at s e))
         ∧ AllEvents.startTimes r !! i = Some (Event.startTime (event_at s e))
         ∧ AllEvents.totalTicketCounts r !! i
             = Some (Event.totalTickets (event_at s e))
         ∧ AllEvents.remainingTicketCounts r !! i
             = Some (Event.remainingTickets (event_at s e))
         ∧ AllEvents.organizers r !! i = Some (Event.organizer (event_at s e))
         ∧ 0 ≤ Event.remainingTickets (event_at s e)
             ≤ Event.totalTickets (event_at s e)).
Proof.
  intros s. destruct (run_invariants cs) as [HI _].
  destruct (allEventIds_run cs) as (_ & Hseq & Hin).
  fold s in HI, Hseq, Hin. unfold getAllEventIds.
  rewrite getAllEvents_eval. cbn zeta.
  assert (Hids : Event.id <$> (event_at s <$> allEventIds s) = allEventIds s).
  { apply list_eq. intros i. rewrite !list_lookup_fmap.
    destruct (allEventIds s !! i) as [e|] eqn:He; [|done]. simpl.
    assert (Hex : Event.exists_ (event_at s e) = true)
      by (apply Hin, list_elem_of_lookup; eauto).
    by destruct (inv_event _ HI _ Hex) as (-> & _). }
  eexists. split; [reflexivity|]. simpl. rewrite Hids.
  split_and!; rewrite ?length_fmap; try done.
  - rewrite Hseq at 1. apply length_seqZ.
  - intros i e He.
    assert (Hex : Event.exists_ (event_at s e) = true)
      by (apply Hin, list_elem_of_lookup; eauto).
    destruct (inv_event _ HI _ Hex) as (_ & _ & _ & ?).
    rewrite !list_lookup_fmap, He. simpl.
    split_and!; try done; try lia.
    rewrite Hseq in He. apply lookup_seqZ in He. lia.
Qed.

(** X7. [getUserTickets] never fails and lists exactly the tickets the
    user won, oldest first: its four arrays have one length, the number of
    the user's wins, so a user with no win gets four empty arrays; the
    event ids are pairwise distinct, the ticket ids strictly increase, a
    ticket id is listed exactly when the stored ticket names the user as
    owner, and row [i] gives the stored ticket of that user for that event
    together with the event's title and the ticket's acquisition time. *)
Theorem getUserTickets_lists_wins (cs : list Call) (user : address) :
  let h := (run cs initial).1 in
  let s := (run cs initial).2 in
  ∃ r,
    getUserTickets s user = inr r
    ∧ UserTickets.eventIds r = (won_by user h).*1
    ∧ UserTickets.ticketIds r = (won_by user h).*2
    ∧ NoDup (UserTickets.eventIds r)
    ∧ StronglySorted Z.lt (UserTickets.ticketIds r)
    ∧ length (UserTickets.ticketIds r) = length (UserTickets.eventIds r)
    ∧ length (UserTickets.eventTitles r) = length (UserTickets.eventIds r)
    ∧ length (UserTickets.acquiredTimes r) = length (UserTickets.eventIds r)
    ∧ (won_by user h = [] →
       r = UserTickets.mk [] [] [] [])
    ∧ (∀ t, t ∈ UserTickets.ticketIds r ↔
         ∃ k, tickets s !! t = Some k ∧ Ticket.owner k = user)
    ∧ (∀ (i : nat) e, UserTickets.eventIds r !! i = Some e →
         ∃ k, UserTickets.ticketIds r !! i = Some (Ticket.id k)
              ∧ tickets s !! Ticket.id k = Some k
              ∧ Ticket.eventId k = e ∧ Ticket.owner k = user
              ∧ UserTickets.acquiredTimes r !! i = Some (Ticket.acquiredAt k)
              ∧ UserTickets.eventTitles r !! i = Some (Event.title (event_at s e))).
Proof.
  intros h s. destruct (run_invariants2 cs) as (HI & HH & H2). fold h s in HI, HH, H2.
  rewrite getUserTickets_eval. cbn zeta.
  rewrite (h2_user_events _ _ H2).
  assert (Hids : (λ e, userTicket_at s e user) <$> (won_by user h).*1
                 = (won_by user h).*2).
  { apply fmap_fst_snd. intros e t Hin.
    by destruct (h2_won _ _ H2 _ _ _ Hin) as (_ & ? & _). }
  assert (Hsorted : StronglySorted Z.lt (won_by user h).*2)
    by apply won_by_sorted, (hinv_issued_sorted _ _ HH).
  assert (Hnd2 : NoDup (won_by user h).*2).
  { clear -Hsorted. induction Hsorted as [|x l _ IH Hx]; constructor; [|done].
    intros Hin. rewrite Forall_forall in Hx. specialize (Hx _ Hin). lia. }
  eexists. split; [reflexivity|]. simpl. rewrite Hids.
  split_and!; try done; rewrite ?length_fmap; try done.
  - apply NoDup_fmap_fst; [|by apply (NoDup_fmap_1 snd)].
    intros e t1 t2 H1 H2'.
    destruct (h2_won _ _ H2 _ _ _ H1) as (_ & <- & _).
    by destruct (h2_won _ _ H2 _ _ _ H2') as (_ & <- & _).
  - intros Hw. by rewrite Hw.
  - intros t. split.
    + intros ([e t'] & -> & Hin)%list_elem_of_fmap. simpl.
      destruct (h2_won _ _ H2 _ _ _ Hin) as (_ & _ & k & Hk & _ & Ho). eauto.
    + intros (k & Hk & <-). apply list_elem_of_fmap.
      exists (Ticket.eventId k, t). split; [done|].
      by apply (h2_ticket_won _ _ H2).
  - intros i e. rewrite !list_lookup_fmap.
    destruct (won_by user h !! i) as [[e' t]|] eqn:Hi; [|done]. simpl.
    intros [= ->].
    assert (Hin : (e, t) ∈ won_by user h) by (apply list_elem_of_lookup; eauto).
    destruct (h2_won _ _ H2 _ _ _ Hin) as (_ & Hu & k & Hk & He & Ho).
    destruct (inv_ticket _ HI _ _ Hk) as (Hid & _).
    exists k. rewrite Hid, Hu. unfold ticket_at. rewrite (rd_Some _ _ _ _ Hk).
    by split_and!.
Qed.

(** X8. [getUserAttempts] returns the user's own attempts in the order
    they were made, one entry per grabTicket call of that user that
    returned, each stamped with that user as participant; later calls only
    add to the end of it. *)
Theorem getUserAttempts_append_only (cs cs' : list Call) (user : address) :
  let h := (run cs initial).1 in
  let s := (run cs initial).2 in
  let s' := (run cs' s).2 in
  getUserAttempts s user = attempts_by user h
  ∧ Forall (λ x, Attempt.participant x = user) (getUserAttempts s user)
  ∧ getUserAttempts s user `prefix_of` getUserAttempts s' user.
Proof.
  intros h s s'. unfold getUserAttempts.
  destruct (run_invariants2 cs) as (_ & _ & H2). fold h s in H2.
  destruct (run_invariants2 (cs ++ cs')) as (_ & _ & H2').
  rewrite run_app in H2'. simpl in H2'. fold h s s' in H2'.
  rewrite (h2_attempts _ _ H2), (h2_attempts _ _ H2'), attempts_by_app.
  split_and!; [done|apply attempts_by_participant|by eexists].
Qed.

(** X9. The ownership mappings agree with the ticket store: the flag
    [hasTicketForEvent] is set for an event and an address exactly when a
    stored ticket has that event and that owner; when it is set,
    [userTicketForEvent] is the id of that ticket, and when it is not,
    [userTicketForEvent] reads 0. *)
Theorem ownership_mappings_agree (cs : list Call) (e : Z) (a : address) :
  let s := (run cs initial).2 in
  (hasTicket_at s e a = true ↔
     ∃ t k, tickets s !! t = Some k ∧ Ticket.eventId k = e ∧ Ticket.owner k = a)
  ∧ (hasTicket_at s e a = true →
     ∃ k, tickets s !! userTicket_at s e a = Some k
          ∧ Ticket.id k = userTicket_at s e a
          ∧ Ticket.eventId k = e ∧ Ticket.owner k = a
          ∧ 1 ≤ userTicket_at s e a)
  ∧ (hasTicket_at s e a = false → userTicket_at s e a = 0).
Proof.
  intros s. destruct (run_invariants2 cs) as (HI & _ & H2). fold s in HI, H2.
  assert (Hown : hasTicket_at s e a = true →
    ∃ k, tickets s !! userTicket_at s e a = Some k
         ∧ Ticket.id k = userTicket_at s e a
         ∧ Ticket.eventId k = e ∧ Ticket.owner k = a
         ∧ 1 ≤ userTicket_at s e a).
  { intros [t Ht]%(h2_has _ _ H2).
    destruct (h2_won _ _ H2 _ _ _ Ht) as (_ & Hu & k & Hk & He & Ho).
    destruct (inv_ticket _ HI _ _ Hk) as (Hid & ? & _).
    exists k. rewrite Hu. split_and!; try done; lia. }
  split_and!; [|done|apply (h2_no_ticket _ _ H2)].
  split.
  - intros (k & Hk & _ & He & Ho & _)%Hown. eauto.
  - intros (t & k & Hk & <- & <-).
    by destruct (inv_ticket _ HI _ _ Hk) as (_ & _ & ? & _).
Qed.

(** X10. A user's attempt log holds at most one Success entry per event:
    exactly one if the user holds a ticket for the event, none otherwise. *)
Theorem one_success_per_user_and_event (cs : list Call) (e : Z) (a : address) :
  let s := (run cs initial).2 in
  log_successes e (getUserAttempts s a) =
    if hasTicket_at s e a then 1%nat else 0%nat.
Proof. intros s. apply (inv3_one_success _ (run_Inv3 cs)). Qed.

(** X11. Taken over all users, the attempt logs hold exactly one entry for
    each grabTicket transaction of the run that returned an outcome;
    reverted transactions and createEvent calls add none. *)
Theorem ledger_size_counts_returned_grabs (cs : list Call) :
  ledger_size (run cs initial).2 = returned_grabs (run cs initial).1.
Proof. destruct (run_invariants2 cs) as (_ & _ & H2). apply (h2_ledger_size _ _ H2). Qed.

(** X12. For a caller other than the zero address, while the ticket
    counter is below its maximum, [grabTicket] succeeds exactly when the
    event exists, has started, still has tickets, and the caller holds none
    for it.  A success returns the current counter as ticket id, lowers the
    event's remaining count by exactly one, stores the ticket with the
    caller as owner and the block timestamp, sets both ownership mappings,
    appends to the event's and the caller's lists, mints the token to the
    caller, and leaves every other event and every other ticket alone. *)
Theorem grabTicket_succeeds_iff (cs : list Call) (env : Env) (e : Z) :
  let s := (run cs initial).2 in
  let out := exec (GrabTicket env e) s in
  let caller := msg_sender env in
  caller ≠ address0 → nextTicketId s < MAX_UINT256 →
  ((∃ r tid, out.1 = Grabbed true r tid) ↔
     Event.exists_ (event_at s e) = true
     ∧ Event.startTime (event_at s e) ≤ block_timestamp env
     ∧ hasTicket_at s e caller = false
     ∧ 0 < Event.remainingTickets (event_at s e))
  ∧ (∀ r tid, out.1 = Grabbed true r tid →
       r = Success ∧ tid = nextTicketId s
       ∧ nextTicketId out.2 = tid + 1
       ∧ Event.remainingTickets (event_at out.2 e)
           = Event.remainingTickets (event_at s e) - 1
       ∧ tickets out.2 !! tid
           = Some (Ticket.mk tid e caller (block_timestamp env))
       ∧ hasTicket_at out.2 e caller = true
       ∧ userTicket_at out.2 e caller = tid
       ∧ eventTickets_at out.2 e = eventTickets_at s e ++ [tid]
       ∧ userEvents_at out.2 caller = userEvents_at s caller ++ [e]
       ∧ ownerOf_at out.2 tid = caller
       ∧ (∀ e', e' ≠ e → event_at out.2 e' = event_at s e')
       ∧ (∀ t, t ≠ tid → tickets out.2 !! t = tickets s !! t)).
Proof.
  intros s out caller Hcaller Hmax. unfold out, caller in *.
  destruct (run_invariants cs) as [HI _]. fold s in HI.
  destruct (exec_grab_spec env e s) as [Hex|Hex Ht|Hex Ht Hh|Hex Ht Hh Hr
    |err Hex Ht Hh Hr Hf|Hex Ht Hh Hr Hm Hs Ho]; cbn [fst snd].
  - split; [|by intros ?? [=]].
    split; [by intros (? & ? & [=])|]. intros (? & _). congruence.
  - split; [|by intros ?? [=]].
    split; [by intros (? & ? & [=])|]. intros (_ & ? & _). lia.
  - split; [|by intros ?? [=]].
    split; [by intros (? & ? & [=])|]. intros (_ & _ & ? & _). congruence.
  - split; [|by intros ?? [=]].
    split; [by intros (? & ? & [=])|]. intros (_ & _ & _ & ?). lia.
  - destruct (inv_event _ HI _ Hex) as (_ & _ & _ & ?).
    pose proof (inv_owner _ HI (nextTicketId s)).
    exfalso. intuition lia.
  - split; [split; [done|eauto]|].
    intros r tid [= <- <-].
    rewrite event_at_granted, decide_True by done.
    rewrite tickets_granted, decide_True by done.
    rewrite hasTicket_at_granted, userTicket_at_granted, !decide_True by done.
    rewrite eventTickets_at_granted, decide_True by done.
    rewrite userEvents_at_granted, decide_True by done.
    split_and!; try done.
    + unfold ownerOf_at. simpl. apply rd_insert_eq.
    + intros e' He'. rewrite event_at_granted. by rewrite decide_False.
    + intros t Ht'. rewrite tickets_granted. by rewrite decide_False.
Qed.

Lemma grabTicket_succeeds_iff_witness :
  let s := (run (take 2 scenario) initial).2 in
  ∃ r tid, (exec (GrabTicket (mkEnv alice 150) 1) s).1 = Grabbed true r tid.
Proof.
  cbv zeta.
  apply (proj1 (grabTicket_succeeds_iff (take 2 scenario) (mkEnv alice 150) 1
                  ltac:(vm_compute; discriminate) ltac:(vm_compute; reflexivity))).
  vm_compute. split_and!; try reflexivity; discriminate.
Defined.

(** X13. Ticket ids have no gaps: the k-th successful claim of a run gets
    id k, a ticket is stored under an id exactly when the id is at least 1
    and below [nextTicketId], and every stored ticket records its own id,
    an owner other than the zero address, and an event that exists. *)
Theorem ticket_ids_are_consecutive (cs : list Call) :
  let h := (run cs initial).1 in
  let s := (run cs initial).2 in
  issued h = seqZ 1 (nextTicketId s - 1)
  ∧ (∀ t, is_Some (tickets s !! t) ↔ 1 ≤ t < nextTicketId s)
  ∧ (∀ t k, tickets s !! t = Some k →
       Ticket.id k = t ∧ Ticket.owner k ≠ address0
       ∧ Event.exists_ (event_at s (Ticket.eventId k)) = true).
Proof.
  intros h s. destruct (run_invariants2 cs) as (HI & HH & H2).
  pose proof (run_Inv3 cs) as H3. fold h s in HI, HH, H2, H3.
  split_and!.
  - rewrite (hinv_ticket_counter _ _ HH).
    rewrite (h2_issued_seq _ _ H2) at 1. f_equal. lia.
  - intros t. split; [|apply (inv3_dense _ H3)].
    intros [k Hk]. by destruct (inv_ticket _ HI _ _ Hk) as (_ & ? & _).
  - intros t k Hk. destruct (inv_ticket _ HI _ _ Hk) as (Hid & _).
    split_and!; [done|by apply (inv3_owner_nonzero _ H3 t)|].
    destruct (Event.exists_ (event_at s (Ticket.eventId k))) eqn:Hex; [done|].
    apply (inv_no_event _ HI) in Hex.
    assert (Hin : t ∈ issued_for (Ticket.eventId k) h)
      by (apply (hinv_store _ _ HH); eauto).
    rewrite <- (hinv_event_tickets _ _ HH), Hex in Hin.
    by apply elem_of_nil in Hin.
Qed.

(** X14. [createEvent] touches nothing that exists: whether it returns or
    reverts, every existing event reads as before, and the ticket store,
    the ownership mappings, the per-event and per-user lists, the attempt
    logs and the ticket counter are unchanged; the id list only grows at
    its end; and an id it returns was not in use and starts with an empty
    ticket list. *)
Theorem createEvent_never_overwrites
    (cs : list Call) (env : Env) (t : string) (st n : Z) :
  let s := (run cs initial).2 in
  let out := exec (CreateEvent env t st n) s in
  (∀ e, Event.exists_ (event_at s e) = true → event_at out.2 e = event_at s e)
  ∧ tickets out.2 = tickets s
  ∧ hasTicketForEvent out.2 = hasTicketForEvent s
  ∧ userTicketForEvent out.2 = userTicketForEvent s
  ∧ eventTickets out.2 = eventTickets s
  ∧ userEvents out.2 = userEvents s
  ∧ userAttempts out.2 = userAttempts s
  ∧ nextTicketId out.2 = nextTicketId s
  ∧ allEventIds s `prefix_of` allEventIds out.2
  ∧ (∀ id, out.1 = Created id →
       Event.exists_ (event_at s id) = false
       ∧ Event.exists_ (event_at out.2 id) = true
       ∧ eventTickets_at out.2 id = []
       ∧ getRecentTickets out.2 id n = inr (mkRecent [] [] [])).
Proof.
  intros s out. unfold out. destruct (run_invariants cs) as [HI _]. fold s in HI.
  destruct (exec_create_spec env t st n s) as [| |Ht Hn Hst Hmax]; simpl;
    try (split_and!; done).
  split_and!; try done.
  - intros e Hex. rewrite event_at_created. case_decide; [|done].
    destruct (inv_event _ HI _ Hex) as (_ & ? & _). lia.
  - by eexists.
  - intros id [= <-].
    assert (Hno : Event.exists_ (event_at s (nextEventId s)) = false).
    { destruct (Event.exists_ (event_at s (nextEventId s))) eqn:Hex; [|done].
      destruct (inv_event _ HI _ Hex) as (_ & ? & _). lia. }
    assert (Hnil : eventTickets_at (created env t st n s) (nextEventId s) = [])
      by (by apply (inv_no_event _ HI)).
    rewrite event_at_created, decide_True by done.
    rewrite getRecentTickets_eval. cbn zeta. rewrite Hnil, reverse_nil, take_nil.
    by split_and!.
Qed.

(** X15. [getRecentTickets] does not check that the event exists: for an
    id that was never created it returns three empty arrays at any limit,
    as it does for limit 0 on any event.  What it returns never names the
    same owner twice, every owner it names holds a ticket for the event,
    and its ticket ids strictly decrease. *)
Theorem getRecentTickets_winners_distinct (cs : list Call) (e limit : Z) :
  let h := (run cs initial).1 in
  let s := (run cs initial).2 in
  getRecentTickets s e 0 = inr (mkRecent [] [] [])
  ∧ (e ∉ created_ids h → getRecentTickets s e limit = inr (mkRecent [] [] []))
  ∧ ∃ res,
      getRecentTickets s e limit = inr res
      ∧ NoDup (owners res)
      ∧ Forall (λ a, hasTicket_at s e a = true) (owners res)
      ∧ StronglySorted (λ x y, y < x) (ticketIds res).
Proof.
  intros h s. destruct (run_invariants cs) as [HI HH]. fold h s in HI, HH.
  rewrite !getRecentTickets_eval. cbn zeta.
  split_and!; [done| |].
  - intros Hnot.
    assert (Hex : Event.exists_ (event_at s e) = false).
    { destruct (Event.exists_ (event_at s e)) eqn:Hex; [|done].
      by apply (hinv_created _ _ HH) in Hex. }
    by rewrite (inv_no_event _ HI _ Hex), reverse_nil, take_nil.
  - rewrite (hinv_event_tickets _ _ HH).
    set (ids := take (Z.to_nat limit) (reverse (issued_for e h))).
    assert (Hin : ∀ t, t ∈ ids →
      ∃ k, tickets s !! t = Some k ∧ Ticket.eventId k = e).
    { intros t Ht. apply (hinv_store _ _ HH).
      apply elem_of_reverse. revert Ht. apply subseteq_take. }
    assert (Hsorted : StronglySorted (λ x y, y < x) (reverse (issued_for e h))).
    { pose proof (issued_for_sorted e h (hinv_issued_sorted _ _ HH)) as Hs.
      clear -Hs. induction Hs as [|x l _ IH Hx]; [constructor|].
      rewrite reverse_cons. apply StronglySorted_app; split_and!;
        [|done|repeat constructor].
      intros a b Ha ->%list_elem_of_singleton.
      rewrite elem_of_reverse in Ha. rewrite Forall_forall in Hx.
      by apply Hx. }
    assert (Hsorted' : StronglySorted (λ x y, y < x) ids).
    { unfold ids. rewrite <- (take_drop (Z.to_nat limit) (reverse _)) in Hsorted.
      by apply StronglySorted_app_1_l in Hsorted. }
    eexists. split; [reflexivity|]. simpl. split_and!; [| |done].
    + apply NoDup_fmap_2_strong.
      * intros t1 t2 H1 H2 Ho.
        destruct (Hin _ H1) as (k1 & Hk1 & He1).
        destruct (Hin _ H2) as (k2 & Hk2 & He2).
        unfold ticket_at in Ho.
        rewrite (rd_Some _ _ _ _ Hk1), (rd_Some _ _ _ _ Hk2) in Ho.
        destruct (inv_ticket _ HI _ _ Hk1) as (_ & _ & _ & U1 & _).
        destruct (inv_ticket _ HI _ _ Hk2) as (_ & _ & _ & U2 & _).
        rewrite He1, Ho in U1. rewrite He2 in U2. congruence.
      * clear -Hsorted'. induction Hsorted' as [|x l _ IH Hx]; constructor; [|done].
        intros Hx'. rewrite Forall_forall in Hx. specialize (Hx _ Hx'). lia.
    + apply Forall_fmap, Forall_forall. intros t Ht. simpl.
      destruct (Hin _ Ht) as (k & Hk & He).
      unfold ticket_at. rewrite (rd_Some _ _ _ _ Hk).
      destruct (inv_ticket _ HI _ _ Hk) as (_ & _ & ? & _). congruence.
Qed.

(** ** Token metadata *)

Lemma ticket_event_exists cs t k :
  tickets (run cs initial).2 !! t = Some k →
  Event.exists_ (event_at (run cs initial).2 (Ticket.eventId k)) = true.
Proof.
  intros Hk. destruct (run_invariants cs) as [HI HH].
  destruct (Event.exists_ (event_at _ (Ticket.eventId k))) eqn:Hex; [done|].
  apply (inv_no_event _ HI) in Hex.
  assert (Hin : t ∈ issued_for (Ticket.eventId k) (run cs initial).1)
    by (apply (hinv_store _ _ HH); eauto).
  rewrite <- (hinv_event_tickets _ _ HH), Hex in Hin.
  by apply elem_of_nil in Hin.
Qed.

(** X16. Whatever [Strings.toString] and [Base64.encode] compute,
    [tokenURI] reverts with "Token does not exist" exactly for the ids
    under which no ticket is stored, that is, outside 1 .. nextTicketId - 1;
    and the URI of an issued ticket never changes, whatever calls follow. *)
Theorem tokenURI_defined_iff_issued
    (toString : Z → string) (Base64_encode : string → string)
    (cs cs' : list Call) (tokenId : Z) :
  let s := (run cs initial).2 in
  let s' := (run cs' s).2 in
  (tokenURI toString Base64_encode s tokenId = inl (Error "Token does not exist")
     ↔ tickets s !! tokenId = None)
  ∧ ((∃ uri, tokenURI toString Base64_encode s tokenId = inr uri)
     ↔ 1 ≤ tokenId < nextTicketId s)
  ∧ (∀ uri, tokenURI toString Base64_encode s tokenId = inr uri →
       tokenURI toString Base64_encode s' tokenId = inr uri).
Proof.
  intros s s'. destruct (run_invariants cs) as [HI _].
  pose proof (run_Inv3 cs) as H3. fold s in HI, H3.
  destruct (tickets s !! tokenId) as [k|] eqn:Hk.
  - destruct (inv_ticket _ HI _ _ Hk) as (Hid & Hrange & _).
    pose proof (ticket_kept_run cs' s _ _ HI Hk) as Hk'. fold s' in Hk'.
    pose proof (ticket_event_exists cs _ _ Hk) as Hex. fold s in Hex.
    destruct (event_fixed_run cs' s _ HI Hex) as (_ & Htitle & _).
    fold s' in Htitle.
    unfold tokenURI, ticket_at.
    rewrite (rd_Some _ _ _ _ Hk), (rd_Some _ _ _ _ Hk'), Hid, Htitle.
    rewrite (proj2 (Z.eqb_neq _ _)) by lia. simpl.
    split_and!; [split; discriminate|split; [done|eauto]|done].
  - unfold tokenURI at 1 2 3, ticket_at. rewrite (rd_None _ _ _ Hk). simpl.
    split_and!; [done| |discriminate].
    split; [intros [uri Huri]; discriminate|].
    intros Hr. destruct (inv3_dense _ H3 _ Hr) as [k Hk']. congruence.
Qed.

(** ** The front end *)

(** X17. The status the event card and the event page compute in the
    browser from an event's fetched start time and remaining count is, for
    the same time, the status [getEventStatus] returns; the two front-end
    copies of the rule agree on every input. *)
Theorem frontend_status_matches_contract (s : State) (e now : Z) :
  let ev := event_at s e in
  Event.exists_ ev = true →
  (getEventStatus now e s).1
    = inr (eventCard_status now (Event.startTime ev) (Event.remainingTickets ev))
  ∧ (∀ t0 start remaining,
       eventPage_status t0 start remaining = eventCard_status t0 start remaining).
Proof.
  intros ev Hex. unfold ev in *. rewrite getEventStatus_eval, Hex. simpl.
  unfold eventCard_status, eventPage_status. split.
  - destruct (Z.ltb_spec now (Event.startTime (event_at s e)));
      destruct (Z.geb_spec now (Event.startTime (event_at s e))); try lia;
      [done|]. by destruct (_ =? _).
  - intros t0 start remaining.
    destruct (Z.ltb_spec t0 start); destruct (Z.geb_spec t0 start); try lia; done.
Qed.

Lemma frontend_status_matches_contract_witness :
  (getEventStatus 150 1 (run (take 3 scenario) initial).2).1
    = inr StatusInProgress.
Proof.
  refine (proj1 (frontend_status_matches_contract
                   (run (take 3 scenario) initial).2 1 150 _)).
  vm_compute. reflexivity.
Defined.

Lemma addTransaction_eval record prev :
  addTransaction record prev =
    if decide (TransactionRecord.hash record ∈ TransactionRecord.hash <$> prev)
    then (prev, None) else (record :: prev, Some (record :: prev)).
Proof.
  unfold addTransaction.
  destruct (existsb _ prev) eqn:Hex.
  - apply existsb_exists in Hex as (tx & Hin & Heq%bool_decide_eq_true).
    rewrite decide_True; [done|]. apply list_elem_of_fmap.
    exists tx. split; [done|]. by apply list_elem_of_In.
  - rewrite decide_False; [done|].
    intros (tx & Heq & Hin)%list_elem_of_fmap.
    assert (existsb (λ tx, bool_decide (TransactionRecord.hash tx
                                          = TransactionRecord.hash record)) prev
            = true); [|congruence].
    apply existsb_exists. exists tx. split; [by apply list_elem_of_In|].
    by apply bool_decide_eq_true.
Qed.

(** X18. [addTransaction] never stores a second record under a hash that is
    already present: such a call leaves the list as it is and saves
    nothing, while a record with a new hash goes to the front and the new
    list is what gets saved.  So from a list with pairwise distinct hashes
    any sequence of calls gives a list with pairwise distinct hashes that
    ends with the old list, holds the hash of every record offered, and
    holds no record that was not offered. *)
Theorem addTransaction_keeps_hashes_distinct
    (records prev : list TransactionRecord.t) :
  NoDup (TransactionRecord.hash <$> prev) →
  let now := addTransactions records prev in
  NoDup (TransactionRecord.hash <$> now)
  ∧ prev `suffix_of` now
  ∧ (∀ r, r ∈ records → TransactionRecord.hash r ∈ TransactionRecord.hash <$> now)
  ∧ (∀ tx, tx ∈ now → tx ∈ prev ∨ tx ∈ records)
  ∧ (∀ r, TransactionRecord.hash r ∈ TransactionRecord.hash <$> now →
       addTransaction r now = (now, None))
  ∧ (∀ r, TransactionRecord.hash r ∉ TransactionRecord.hash <$> now →
       addTransaction r now = (r :: now, Some (r :: now))).
Proof.
  intros Hnd. cbn zeta. unfold addTransactions.
  assert (Hmain : NoDup (TransactionRecord.hash <$> foldl (λ st r, (addTransaction r st).1) prev records)
    ∧ prev `suffix_of` foldl (λ st r, (addTransaction r st).1) prev records
    ∧ (∀ r, r ∈ records → TransactionRecord.hash r
         ∈ TransactionRecord.hash <$> foldl (λ st r, (addTransaction r st).1) prev records)
    ∧ (∀ tx, tx ∈ foldl (λ st r, (addTransaction r st).1) prev records →
         tx ∈ prev ∨ tx ∈ records)).
  { revert prev Hnd. induction records as [|r records IH]; intros prev Hnd; simpl.
    - split_and!; [done|done|by intros ? ?%elem_of_nil|auto].
    - assert (Hstep : NoDup (TransactionRecord.hash <$> (addTransaction r prev).1)
        ∧ prev `suffix_of` (addTransaction r prev).1
        ∧ TransactionRecord.hash r
            ∈ TransactionRecord.hash <$> (addTransaction r prev).1
        ∧ (∀ tx, tx ∈ (addTransaction r prev).1 → tx ∈ prev ∨ tx = r)).
      { rewrite addTransaction_eval. case_decide; simpl.
        - split_and!; auto.
        - split_and!.
          + by constructor.
          + by exists [r].
          + by left.
          + intros tx [->|Hq]%elem_of_cons; auto. }
      destruct Hstep as (S1 & S2 & S3 & S4).
      destruct (IH _ S1) as (I1 & I2 & I3 & I4).
      split_and!; [done|by etrans| |].
      + intros r' [->|Hin]%elem_of_cons; [|by apply I3].
        destruct I2 as [k ->]. rewrite fmap_app. apply elem_of_app. by right.
      + intros tx Htx. destruct (I4 _ Htx) as [Hp|Hr]; [|right; by right].
        destruct (S4 _ Hp) as [Hq | ->]; [by left|right; by left]. }
  destruct Hmain as (M1 & M2 & M3 & M4).
  split_and!; try done.
  - intros r Hr. rewrite addTransaction_eval. by rewrite decide_True.
  - intros r Hr. rewrite addTransaction_eval. by rewrite decide_False.
Qed.

Lemma addTransaction_keeps_hashes_distinct_witness :
  let r1 := TransactionRecord.mk "0xaa" grab (Some "1") (Some "X") None true 400
              "21000" "2" "42000" 1000 in
  let r2 := TransactionRecord.mk "0xaa" create None None None false 0 "" "" "" 0 in
  addTransactions [r1; r2] [] = [r1]
  ∧ NoDup (TransactionRecord.hash <$> addTransactions [r1; r2] []).
Proof.
  cbv zeta. split; [vm_compute; reflexivity|].
  apply (addTransaction_keeps_hashes_distinct _ []). constructor.
Defined.

(** X19. The event page takes a mined, non-reverted [grabTicket]
    transaction for a win.  Since the contract returns NotStarted,
    AlreadyOwnsTicket and SoldOut instead of reverting, the page's success
    flag is set for every claim on an existing event (non-zero caller,
    counter below its maximum) whatever the contract decided, and the
    result it shows is the contract's result only when that is Success. *)
Theorem event_page_reports_every_returned_claim_as_success
    (cs : list Call) (env : Env) (e : Z) :
  let s := (run cs initial).2 in
  let ret := (exec (GrabTicket env e) s).1 in
  Event.exists_ (event_at s e) = true →
  msg_sender env ≠ address0 → nextTicketId s < MAX_UINT256 →
  handleGrabTicket_isSuccess ret = true
  ∧ handleGrabTicket_result ret = Success
  ∧ ∃ ok r tid,
      ret = Grabbed ok r tid
      ∧ (handleGrabTicket_result ret = r ↔ ok = true)
      ∧ (block_timestamp env < Event.startTime (event_at s e) → r = NotStarted)
      ∧ (Event.startTime (event_at s e) ≤ block_timestamp env →
         hasTicket_at s e (msg_sender env) = true → r = AlreadyOwnsTicket).
Proof.
  intros s ret Hex Hsender Hmax. unfold ret.
  destruct (run_invariants cs) as [HI _]. fold s in HI.
  destruct (exec_grab_spec env e s) as [Hno|_ Ht|_ Ht Hh|_ Ht Hh Hr
    |err _ Ht Hh Hr Hf|_ Ht Hh Hr Hm Hs Ho]; cbn [fst snd].
  - congruence.
  - split_and!; [done..|]. do 3 eexists. split_and!; [done| |done|lia].
    split; discriminate.
  - split_and!; [done..|]. do 3 eexists. split_and!; [done| |lia|done].
    split; discriminate.
  - split_and!; [done..|]. do 3 eexists. split_and!; [done| |lia|congruence].
    split; discriminate.
  - destruct (inv_event _ HI _ Hex) as (_ & _ & _ & ?).
    pose proof (inv_owner _ HI (nextTicketId s)).
    exfalso. intuition lia.
  - split_and!; [done..|]. do 3 eexists. split_and!; [done|done|lia|congruence].
Qed.

Lemma event_page_reports_every_returned_claim_as_success_witness :
  let ret := (exec (GrabTicket (mkEnv carol 200) 1) (run scenario initial).2).1 in
  ret = Grabbed false SoldOut 0 ∧ handleGrabTicket_isSuccess ret = true.
Proof.
  cbv zeta. split; [vm_compute; reflexivity|].
  refine (proj1 (event_page_reports_every_returned_claim_as_success
                   scenario (mkEnv carol 200) 1 _ _ _)).
  - vm_compute. reflexivity.
  - vm_compute. discriminate.
  - vm_compute. reflexivity.
Defined.

(** ** Token balances *)

Lemma won_by_length a h : (length (won_by a h) ≤ length (issued h))%nat.
Proof.
  induction h as [|[c r] h IH]; simpl; [done|].
  destruct c, r as [|[] ? ?|]; simpl; try case_decide; simpl; lia.
Qed.

Lemma balance_at_granted env e s a :
  balance_at (granted env e s) a =
    if decide (msg_sender env = a) then (balance_at s a + 1) mod 2 ^ 256
    else balance_at s a.
Proof.
  unfold balance_at at 1. simpl. rewrite rd_insert.
  case_decide; [by subst|done].
Qed.

Lemma balance_run cs a :
  balance_at (run cs initial).2 a = Z.of_nat (length (won_by a (run cs initial).1)).
Proof.
  revert a.
  cut (Inv (run cs initial).2 ∧ HInv (run cs initial).1 (run cs initial).2
       ∧ ∀ a, balance_at (run cs initial).2 a
              = Z.of_nat (length (won_by a (run cs initial).1))); [tauto|].
  apply (run_ind (λ h s, Inv s ∧ HInv h s
                         ∧ ∀ a, balance_at s a = Z.of_nat (length (won_by a h)))).
  { split_and!; [apply Inv_initial|apply HInv_initial|done]. }
  intros h s c (HI & HH & Hb).
  split_and!; [by apply Inv_exec|by apply HInv_exec|].
  intros a. rewrite won_by_app, length_app.
  destruct c as [env t st n|env e].
  - destruct (exec_create_spec env t st n s); simpl; rewrite ?Nat.add_0_r; apply Hb.
  - destruct (exec_grab_spec env e s) as [| | | | |Hex Ht Hh Hr Hm Hs Ho];
      cbn [fst snd won_by length]; rewrite ?Nat.add_0_r; try apply Hb.
    rewrite balance_at_granted. case_decide; simpl; [|rewrite Nat.add_0_r; apply Hb].
    rewrite Hb. pose proof (won_by_length a h).
    pose proof (hinv_ticket_counter _ _ HH). unfold MAX_UINT256 in Hm.
    rewrite Z.mod_small by lia. lia.
Qed.

(** X20. As long as tickets only come from [grabTicket], the token balance
    that [_mint] keeps for an address is the number of tickets the address
    holds, which is the length of its [userEvents] list and the number of
    rows [getUserTickets] returns for it; the unchecked increment never
    wraps around. *)
Theorem balance_counts_tickets (cs : list Call) (a : address) :
  let s := (run cs initial).2 in
  balance_at s a = Z.of_nat (length (userEvents_at s a))
  ∧ 0 ≤ balance_at s a < nextTicketId s
  ∧ ∃ r, getUserTickets s a = inr r
         ∧ balance_at s a = Z.of_nat (length (UserTickets.ticketIds r)).
Proof.
  intros s. destruct (run_invariants2 cs) as (_ & HH & H2). fold s in HH, H2.
  pose proof (balance_run cs a) as Hb. fold s in Hb.
  pose proof (won_by_length a (run cs initial).1) as Hlen.
  rewrite getUserTickets_eval. cbn zeta.
  rewrite (h2_user_events _ _ H2), length_fmap.
  split_and!; [done|lia| |].
  - rewrite (hinv_ticket_counter _ _ HH). lia.
  - eexists. split; [reflexivity|]. simpl. by rewrite !length_fmap.
Qed.
